(** * neurosym: s-expression rendering, productions and bounded search

    A shallow embedding of

    - [neurosym/programs/s_expression_render.py]
      ([to_pair], [from_pair], [render_s_expression], [parse_s_expression],
      [symbols_for_program]),
    - [neurosym/dsl/production.py]
      ([ConcreteProduction], [ParameterizedProduction]),

    together with a model of the two facilities these files import: the
    [s_expression_parser] package ([Pair], [nil], [parse], [Renderer]) and
    the depth-bounded best-first search of the design document. *)

From Stdlib Require Import String Ascii List ZArith Lia.
From stdpp Require Import base strings gmap list.

Set Warnings "-register-all".
Local Open Scope string_scope.
Local Open Scope list_scope.

(** ** Python exceptions and fallible computations *)

Inductive exn : Type :=
| AssertionError
| ValueError
| AttributeError
| SyntaxError.

Inductive result (A : Type) : Type :=
| Ok (a : A)
| Raise (e : exn).
Arguments Ok {A} a.
Arguments Raise {A} e.

(** Sequencing: an exception raised by the first computation is the
    outcome of the whole; [x ← m; k] is stdpp's notation for it. *)
#[global] Instance result_ret : MRet result := fun A a => Ok a.
#[global] Instance result_bind : MBind result := fun A B k m =>
  match m with
  | Ok a => k a
  | Raise e => Raise e
  end.

Definition raises {A : Type} (m : result A) : Prop :=
  exists e, m = Raise e.

(** The list comprehension [[f(x) for x in xs]]: left to right, stopping
    at the first exception. *)
Definition each {A B : Type} (f : A -> result B)
    : list A -> result (list B) :=
  fix go (xs : list A) : result (list B) :=
    match xs with
    | [] => Ok []
    | x :: xs' =>
        y ← f x;
        ys ← go xs';
        Ok (y :: ys)
    end.

(** ** Strings as Python uses them here *)

(** [s.startswith(pre)] *)
Fixpoint startswith (s pre : string) {struct pre} : bool :=
  match pre, s with
  | EmptyString, _ => true
  | String a pre', String b s' => Ascii.eqb a b && startswith s' pre'
  | String _ _, EmptyString => false
  end.
Arguments startswith : simpl never.

(** The slice [s[n:]]. *)
Fixpoint slice_from (n : nat) (s : string) : string :=
  match n, s with
  | O, _ => s
  | S _, EmptyString => EmptyString
  | S n', String _ s' => slice_from n' s'
  end.

(** ** The [s_expression_parser] package *)

Module Lib.

(** What [parse] returns and [Renderer.render] accepts: a token (a Python
    [str]), the singleton [nil], or a [Pair] of a car and a cdr. *)
Inductive obj : Type :=
| Str (s : string)
| nil
| Pair (car cdr : obj).

Definition is_str (o : obj) : bool :=
  match o with Str _ => true | _ => false end.

Inductive token : Type :=
| TOpen
| TClose
| TWord (w : string).

(** Characters that end a word: Python's ASCII white space (tab, line
    feed, vertical tab, form feed, carriage return, space) and the two
    parentheses. *)
Definition is_space (c : ascii) : bool :=
  let n := nat_of_ascii c in
  (((9 <=? n) && (n <=? 13)) || (n =? 32))%nat.

Definition is_open (c : ascii) : bool := Ascii.eqb c "(".
Definition is_close (c : ascii) : bool := Ascii.eqb c ")".

Definition is_delim (c : ascii) : bool :=
  is_space c || is_open c || is_close c.

Definition flush (word : string) (ts : list token) : list token :=
  match word with
  | EmptyString => ts
  | _ => TWord word :: ts
  end.

(** Modelled from the spec: the lexer of the package, which is not part of
    this repository.  The text is whitespace-delimited; parentheses are
    tokens of their own; any other maximal run of characters is a word.
    (No prefix symbols are configured by the caller, and dots are ordinary
    words since [dots_are_cons=False].) *)
Fixpoint lex_from (word : string) (s : string) : list token :=
  match s with
  | EmptyString => flush word []
  | String c s' =>
      if is_space c then flush word (lex_from "" s')
      else if is_open c then flush word (TOpen :: lex_from "" s')
      else if is_close c then flush word (TClose :: lex_from "" s')
      else lex_from (word +:+ String c "") s'
  end.

Definition lex (s : string) : list token := lex_from "" s.

(** The proper list [Pair(x1, Pair(x2, ... tl))]. *)
Definition cons_onto (xs : list obj) (tl : obj) : obj := foldr Pair tl xs.

(** Modelled from the spec: the reader of the package.  [done] holds the
    expressions already read at the current nesting level, most recent
    first; [outer] holds the same for each enclosing open parenthesis.
    Unbalanced parentheses are an error. *)
Fixpoint parse_tokens (ts : list token) (outer : list (list obj))
    (done : list obj) : result (list obj) :=
  match ts with
  | [] =>
      match outer with
      | [] => Ok (rev done)
      | _ :: _ => Raise SyntaxError
      end
  | TOpen :: ts' => parse_tokens ts' (done :: outer) []
  | TClose :: ts' =>
      match outer with
      | [] => Raise SyntaxError
      | up :: outer' =>
          parse_tokens ts' outer' (cons_onto (rev done) nil :: up)
      end
  | TWord w :: ts' => parse_tokens ts' outer (Str w :: done)
  end.

(** [parse(s, ParserConfig((), dots_are_cons=False))]: the list of the
    top-level expressions of [s]. *)
Definition parse (s : string) : result (list obj) :=
  parse_tokens (lex s) [] [].

(** Modelled from the spec: [Renderer(columns=float("inf")).render], on one
    line: a word is printed as it is, [nil] as [()], a list as its items
    separated by one space inside parentheses. *)
Fixpoint render (o : obj) : string :=
  match o with
  | Str s => s
  | nil => "()"
  | Pair a d => "(" +:+ render a +:+ render_cdr d
  end
with render_cdr (d : obj) : string :=
  match d with
  | nil => ")"
  | Pair a d' => " " +:+ render a +:+ render_cdr d'
  | Str s => " . " +:+ s +:+ ")"
  end.

(** A word the lexer gives back unchanged: not empty, no delimiter. *)
Fixpoint no_delim (s : string) : bool :=
  match s with
  | EmptyString => true
  | String c s' => negb (is_delim c) && no_delim s'
  end.

Definition is_word (s : string) : bool :=
  negb (String.eqb s "") && no_delim s.

(** A text that is empty or begins with a delimiter, so that a word
    before it ends there. *)
Definition ends_word (r : string) : Prop :=
  match r with
  | EmptyString => True
  | String c _ => is_delim c = true
  end.

(** Objects that are read back as they were printed: words and proper
    lists of such. *)
Fixpoint readable (o : obj) : bool :=
  match o with
  | Str s => is_word s
  | nil => true
  | Pair a d => readable a && negb (is_str d) && readable d
  end.

(** A token that, when it is a word, is one in the sense above. *)
Definition word_token (t : token) : Prop :=
  match t with
  | TWord w => is_word w = true
  | _ => True
  end.

(** The tokens of a printed object (a device of the proofs). *)
Fixpoint tokens (o : obj) : list token :=
  match o with
  | Str s => [TWord s]
  | nil => [TOpen; TClose]
  | Pair a d => TOpen :: tokens a ++ tokens_cdr d
  end
with tokens_cdr (d : obj) : list token :=
  match d with
  | nil => [TClose]
  | Pair a d' => tokens a ++ tokens_cdr d'
  | Str s => [TWord "."; TWord s; TClose]
  end.

End Lib.

(** ** [neurosym/programs/s_expression_render.py] *)

Module Render.
Import Lib.

(** Modelled from the spec: the dataclass [SExpression] of
    [neurosym/programs/s_expression.py] (a symbol and a tuple of children,
    compared structurally), which the file imports.  [from_pair] also
    returns bare Python strings, alone or as children, so a value here is
    either of the two. *)
Inductive value : Type :=
| Atom (s : string)
| SExpression (symbol : string) (children : list value).

(** A symbolic program: an [SExpression] all of whose descendants are
    [SExpression]s. *)
Fixpoint is_program (v : value) : bool :=
  match v with
  | Atom _ => false
  | SExpression _ children => forallb is_program children
  end.

(** [to_pair].  The values at hand, [str] and the plain dataclass
    [SExpression], carry no [__to_pair__] attribute, so the dispatch that
    opens the source function never fires; a bare string then fails the
    assertion. *)
Fixpoint to_pair (s_exp : value) (for_stitch : bool) : result obj :=
  match s_exp with
  | Atom _ => Raise AssertionError
  | SExpression symbol children =>
      if for_stitch && bool_decide (children = []) then
        if startswith symbol "$" then Ok (Str symbol)
        else Ok (Str ("leaf-" +:+ symbol))
      else
        rest ← each (fun x => to_pair x for_stitch) children;
        let elements := Str symbol :: rest in
        Ok (fold_left (fun result element => Pair element result)
                      (rev elements) nil)
  end.

(** [from_pair].  On a string the two tests of stitch mode come first,
    then the membership test, then the string itself.  [nil] is not a
    [Pair] and fails the assertion.  The [while] loop walks the cdr chain
    with the list [elements] built so far; the first car must be a string,
    every later one is converted recursively; a cdr that is a string has
    no [car]. *)
Fixpoint from_pair (pair : obj) (should_not_be_leaf : gset string)
    (for_stitch : bool) : result value :=
  match pair with
  | Str s =>
      if for_stitch && startswith s "leaf-" then
        Ok (SExpression (slice_from 5 s) [])
      else if for_stitch && startswith s "$" then
        Ok (SExpression s [])
      else if bool_decide (s ∈ should_not_be_leaf) then
        Ok (SExpression s [])
      else Ok (Atom s)
  | nil => Raise AssertionError
  | Pair _ _ =>
      elements ← (fix loop (pair : obj) (elements : list value)
                   : result (list value) :=
                   match pair with
                   | nil => Ok elements
                   | Pair car cdr =>
                       car' ← match elements with
                              | [] =>
                                  match car with
                                  | Str s => Ok (Atom s)
                                  | _ => Raise AssertionError
                                  end
                              | _ :: _ =>
                                  from_pair car should_not_be_leaf for_stitch
                              end;
                       loop cdr (elements ++ [car'])
                   | Str _ => Raise AttributeError
                   end) pair [];
      match elements with
      | Atom head :: tail => Ok (SExpression head tail)
      | _ => Raise ValueError
      end
  end.

(** The [while] loop of [from_pair] on its own, with the conversion of a
    car as a parameter. *)
Definition from_pair_loop (convert : obj -> result value)
    : obj -> list value -> result (list value) :=
  fix loop (pair : obj) (elements : list value) : result (list value) :=
    match pair with
    | nil => Ok elements
    | Pair car cdr =>
        car' ← match elements with
               | [] =>
                   match car with
                   | Str s => Ok (Atom s)
                   | _ => Raise AssertionError
                   end
               | _ :: _ => convert car
               end;
        loop cdr (elements ++ [car'])
    | Str _ => Raise AttributeError
    end.

(** [render_s_expression] *)
Definition render_s_expression (s_exp : value) (for_stitch : bool)
    : result string :=
  p ← to_pair s_exp for_stitch;
  Ok (render p).

(** [parse_s_expression]; a missing [should_not_be_leaf] is the empty
    set. *)
Definition parse_s_expression (s : string)
    (should_not_be_leaf : option (gset string)) (for_stitch : bool)
    : result value :=
  let should_not_be_leaf := default ∅ should_not_be_leaf in
  pairs ← parse s;
  if negb (length pairs =? 1)%nat then Raise ValueError
  else
    match pairs with
    | p :: _ => from_pair p should_not_be_leaf for_stitch
    | [] => Raise ValueError
    end.

(** [symbols_for_program]; a bare string has no [symbol] attribute. *)
Fixpoint symbols_for_program (s : value) : result (list string) :=
  match s with
  | Atom _ => Raise AttributeError
  | SExpression symbol children =>
      per_child ← each symbols_for_program children;
      Ok ([symbol] ++ concat per_child)
  end.

(** *** Vocabulary of the statements *)

(** Every symbol of [v] satisfies [ok]. *)
Fixpoint all_symbols (ok : string -> bool) (v : value) : bool :=
  match v with
  | Atom _ => true
  | SExpression symbol children =>
      ok symbol && forallb (all_symbols ok) children
  end.

(** A symbol that neither starts with the reserved prefix nor with the
    reserved marker. *)
Definition unreserved (s : string) : bool :=
  negb (startswith s "leaf-") && negb (startswith s "$").

(** Every symbol of a zero-child node of [v] is in [names]. *)
Fixpoint leaves_within (names : gset string) (v : value) : bool :=
  match v with
  | Atom _ => true
  | SExpression symbol children =>
      match children with
      | [] => bool_decide (symbol ∈ names)
      | _ :: _ => forallb (leaves_within names) children
      end
  end.

(** The symbols of the nodes in preorder, and the number of nodes, as the
    description has them. *)
Fixpoint preorder (v : value) : list string :=
  match v with
  | Atom _ => []
  | SExpression symbol children => symbol :: flat_map preorder children
  end.

Fixpoint node_count (v : value) : nat :=
  match v with
  | Atom _ => 0
  | SExpression _ children => S (list_sum (map node_count children))
  end.

(** The items of a parenthesized list after its head, each behind one
    space. *)
Definition spaced (items : list string) : string :=
  foldr (fun item acc => " " +:+ item +:+ acc) "" items.

(** The value a bare token [s] is read as. *)
Definition token_value (s : string) (names : gset string)
    (for_stitch : bool) : value :=
  if for_stitch && startswith s "leaf-" then SExpression (slice_from 5 s) []
  else if for_stitch && startswith s "$" then SExpression s []
  else if bool_decide (s ∈ names) then SExpression s []
  else Atom s.

(** [s] holds exactly [n] top-level expressions. *)
Definition top_level_count (s : string) (n : nat) : Prop :=
  exists pairs, parse s = Ok pairs /\ length pairs = n.

(** The items of a list after its head: the cars along the cdr chain. *)
Fixpoint items (d : obj) : list obj :=
  match d with
  | Pair a d' => a :: items d'
  | _ => []
  end.

(** The objects [from_pair] converts: a string, or a proper list whose
    head is a string and whose items are convertible in turn; [nil] is
    not. *)
Fixpoint convertible (o : obj) : bool :=
  match o with
  | Str _ => true
  | nil => false
  | Pair a d => is_str a && convertible_items d
  end
with convertible_items (d : obj) : bool :=
  match d with
  | nil => true
  | Pair a d' => convertible a && convertible_items d'
  | Str _ => false
  end.

(** Every list in [o] has at least one item after its head. *)
Fixpoint applied (o : obj) : bool :=
  match o with
  | Pair a d =>
      match d with nil => false | _ => true end
      && applied a && applied_items d
  | _ => true
  end
with applied_items (d : obj) : bool :=
  match d with
  | Pair a d' => applied a && applied_items d'
  | _ => true
  end.

(** Every string in [o] is a word. *)
Fixpoint words_only (o : obj) : bool :=
  match o with
  | Str s => is_word s
  | nil => true
  | Pair a d => words_only a && words_only d
  end.

(** The symbols of [v] can be printed in the given mode: each is a word,
    except that the symbol of a zero-child node in stitch mode, which is
    printed behind the prefix, need only be free of delimiters. *)
Fixpoint fits (for_stitch : bool) (v : value) : bool :=
  match v with
  | Atom a => is_word a
  | SExpression symbol children =>
      (if for_stitch && bool_decide (children = []) then no_delim symbol
       else is_word symbol)
      && forallb (fits for_stitch) children
  end.

End Render.

(** ** [neurosym/dsl/production.py] *)

Module Production.

Section Classes.
(** Values handed to and returned by a production's computation, the
    imported [TypeSignature], and the outside world a state initializer
    may draw from (fresh parameters per use). *)
Context {V R TypeSignature World : Type}.

(** A state is a Python [dict] with string keys. *)
#[local] Abbreviation State := (gmap string V).

(** [Callable[..., object]]: called with positional arguments and
    keyword arguments. *)
Definition callable : Type := list V -> State -> R.

(** The abstract base class. *)
Class Production (P : Type) : Type := {
  symbol : P -> string;
  type_signature : P -> TypeSignature;
  initialize : P -> World -> State * World;
  compute_on_pytorch : P -> State -> list V -> result R
}.

Record ConcreteProduction : Type := {
  _symbol : string;
  _type_signature : TypeSignature;
  _compute_on_pytorch : callable
}.

(** A subclass of [ConcreteProduction]: its three fields and one more. *)
Record ParameterizedProduction : Type := {
  concrete :> ConcreteProduction;
  _initialize : World -> State * World
}.

#[global] Instance ConcreteProduction_Production
  : Production ConcreteProduction := {|
  symbol self := _symbol self;
  type_signature self := _type_signature self;
  initialize self w := (∅, w);
  compute_on_pytorch self state inputs :=
    if decide (state = ∅) then Ok (_compute_on_pytorch self inputs ∅)
    else Raise AssertionError
|}.

#[global] Instance ParameterizedProduction_Production
  : Production ParameterizedProduction := {|
  symbol (self : ParameterizedProduction) := _symbol self;
  type_signature (self : ParameterizedProduction) := _type_signature self;
  initialize (self : ParameterizedProduction) w := _initialize self w;
  compute_on_pytorch (self : ParameterizedProduction) state inputs :=
    Ok (_compute_on_pytorch self inputs state)
|}.
End Classes.

Arguments callable : clear implicits.
Arguments Production : clear implicits.
Arguments ConcreteProduction : clear implicits.
Arguments ParameterizedProduction : clear implicits.

(** A parameterized production over integers: the sum of its inputs plus
    the parameter [b], which it initializes to 1. *)
Definition bias_production : ParameterizedProduction Z Z unit unit :=
  {| concrete :=
       {| _symbol := "bias";
          _type_signature := tt;
          _compute_on_pytorch := fun inputs kwargs =>
            (foldr Z.add 0 inputs + default 0 (kwargs !! "b"))%Z |};
     _initialize := fun w => ({["b" := 1%Z]}, w) |}.

End Production.

(** ** Search graphs and depth-bounded best-first search

    [neurosym/search/bounded_astar.py] and [neurosym/near/near_graph.py]
    are imported by the tests but are not among the sources at hand. *)

Module Search.

Section Graph.
Context {node : Type}.

(** Modelled from the spec: the search graph, which is missing from the
    sources: a root, the successors of a node on demand (a finite
    sequence, in production order), and the goal predicate. *)
Record SearchGraph : Type := {
  initial_node : node;
  expand_node : node -> list node;
  is_goal_node : node -> bool
}.

(** A frontier entry: the cost of a node, its rank in discovery order,
    and its depth. *)
Record entry : Type := {
  e_cost : Z;
  e_rank : nat;
  e_depth : nat;
  e_node : node
}.

(** A frontier kept in the order it is popped in: by cost, ties by
    discovery order. *)
Record frontier_state : Type := {
  frontier : list entry;
  discovered : nat
}.

Definition precedes (a b : entry) : bool :=
  (e_cost a <? e_cost b)%Z
  || ((e_cost a =? e_cost b)%Z && (e_rank a <=? e_rank b)%nat).

Fixpoint enqueue (e : entry) (q : list entry) : list entry :=
  match q with
  | [] => [e]
  | x :: q' => if precedes e x then e :: x :: q' else x :: enqueue e q'
  end.

Definition push (cost : node -> Z) (depth : nat) (st : frontier_state)
    (n : node) : frontier_state :=
  {| frontier :=
       enqueue {| e_cost := cost n; e_rank := discovered st;
                  e_depth := depth; e_node := n |} (frontier st);
     discovered := S (discovered st) |}.

Variable g : SearchGraph.
Variable cost : node -> Z.
Variable max_depth : nat.

Definition start : frontier_state :=
  push cost 0 {| frontier := []; discovered := 0 |} (initial_node g).

(** Modelled from the spec: one turn of bounded best-first search,
    which is missing from the sources.  Pop the minimum-cost entry; if
    its depth exceeds [max_depth], drop it without expanding it;
    otherwise yield it if it is a goal, then push its children one level
    deeper.  [None] when the frontier is exhausted. *)
Definition step (st : frontier_state)
    : option (list node * frontier_state) :=
  match frontier st with
  | [] => None
  | e :: rest =>
      let st' := {| frontier := rest; discovered := discovered st |} in
      if (max_depth <? e_depth e)%nat then Some ([], st')
      else
        Some (if is_goal_node g (e_node e) then [e_node e] else [],
              foldl (push cost (S (e_depth e))) st'
                    (expand_node g (e_node e)))
  end.

(** What the lazy sequence has yielded after at most [turns] turns, and
    the frontier left. *)
Fixpoint run (turns : nat) (st : frontier_state)
    : list node * frontier_state :=
  match turns with
  | O => ([], st)
  | S turns' =>
      match step st with
      | None => ([], st)
      | Some (out, st') =>
          let '(outs, final) := run turns' st' in (out ++ outs, final)
      end
  end.

Definition bounded_astar (turns : nat) : list node * frontier_state :=
  run turns start.

(** The turns spent on a node that enters the frontier with [levels]
    levels left before it exceeds the bound. *)
Fixpoint work (levels : nat) (n : node) : nat :=
  match levels with
  | O => 1
  | S levels' => S (list_sum (map (work levels') (expand_node g n)))
  end.

Definition entry_work (e : entry) : nat :=
  work (S max_depth - e_depth e) (e_node e).

Definition frontier_work (q : list entry) : nat :=
  list_sum (map entry_work q).

(** A path through the graph that never ends. *)
Definition infinite_chain (chain : nat -> node) : Prop :=
  chain 0%nat = initial_node g
  /\ forall i, In (chain (S i)) (expand_node g (chain i)).
End Graph.

Arguments SearchGraph : clear implicits.

(** *** The graph of partial programs of a DSL *)

Section DSL.
Context {type : Type} `{EqDecision type}.

(** Modelled from the spec: a production as the search graph sees it,
    a symbol with argument types and a return type. *)
Record rule : Type := {
  r_symbol : string;
  r_arguments : list type;
  r_return : type
}.

(** A partial program: a typed hole, or a symbol applied to partial
    programs. *)
Inductive partial : Type :=
| Hole (t : type)
| Apply (symbol : string) (children : list partial).

Variable dsl : list rule.

(** The rules returning exactly [t], in declaration order. *)
Definition productions_returning (t : type) : list rule :=
  filter (fun r => r_return r = t) dsl.

(** The application of a rule to fresh holes, one per argument. *)
Definition instantiate (r : rule) : partial :=
  Apply (r_symbol r) (map Hole (r_arguments r)).

(** Modelled from the spec: the expansion rule.  The leftmost open hole
    is replaced by each rule of its type in turn; [None] for a complete
    program. *)
Fixpoint expand_leftmost (p : partial) : option (list partial) :=
  match p with
  | Hole t => Some (map instantiate (productions_returning t))
  | Apply symbol children =>
      (fix first (before after : list partial) : option (list partial) :=
         match after with
         | [] => None
         | c :: after' =>
             match expand_leftmost c with
             | Some cs =>
                 Some (map (fun c' => Apply symbol (before ++ c' :: after'))
                           cs)
             | None => first (before ++ [c]) after'
             end
         end) [] children
  end.

Definition dsl_graph (target : type) (is_goal : partial -> bool)
    : SearchGraph partial :=
  {| initial_node := Hole target;
     expand_node p := default [] (expand_leftmost p);
     is_goal_node := is_goal |}.
End DSL.

Arguments rule : clear implicits.
Arguments partial : clear implicits.

(** The grammar of the scenarios: [one() -> int], [add(int, int) -> int]. *)
Definition arith_dsl : list (rule string) :=
  [ {| r_symbol := "one"; r_arguments := []; r_return := "int" |};
    {| r_symbol := "add"; r_arguments := ["int"; "int"];
       r_return := "int" |} ].

(** The evaluator of the scenarios: [one] is 1 and [add] is addition; a
    program with a hole has no value. *)
Fixpoint arith_value (p : partial string) : option nat :=
  match p with
  | Hole _ => None
  | Apply symbol children =>
      if String.eqb symbol "one" then Some 1%nat
      else
        match children with
        | [a; b] =>
            x ← arith_value a;
            y ← arith_value b;
            Some (x + y)%nat
        | _ => None
        end
  end.

Definition evaluates_to (n : nat) (p : partial string) : bool :=
  bool_decide (arith_value p = Some n).

(** [add] nested [i] times on its first argument. *)
Fixpoint left_nested (i : nat) : partial string :=
  match i with
  | O => Hole "int"
  | S i' => Apply "add" [left_nested i'; Hole "int"]
  end.

End Search.

(** * Properties *)

(** ** The reader gives back what the renderer printed *)

Module LibFacts.
Import Lib.

Lemma append_cons (c : ascii) (s r : string) :
  String c s +:+ r = String c (s +:+ r).
Proof. reflexivity. Qed.

Lemma append_empty_l (r : string) : "" +:+ r = r.
Proof. reflexivity. Qed.

Lemma append_empty_r (s : string) : s +:+ "" = s.
Proof. induction s as [|c s IH]; [reflexivity|]. by rewrite append_cons, IH. Qed.

Lemma append_assoc (s t r : string) : (s +:+ t) +:+ r = s +:+ (t +:+ r).
Proof.
  induction s as [|c s IH]; [reflexivity|].
  by rewrite !append_cons, IH.
Qed.

Lemma flush_nonempty (w : string) (ts : list token) :
  w <> "" -> flush w ts = TWord w :: ts.
Proof. by destruct w. Qed.

Lemma lex_from_no_delim (t w r : string) :
  no_delim t = true -> lex_from w (t +:+ r) = lex_from (w +:+ t) r.
Proof.
  revert w. induction t as [|c t IH]; intros w Ht.
  - by rewrite append_empty_l, append_empty_r.
  - simpl in Ht. apply andb_true_iff in Ht as [Hc Ht].
    apply negb_true_iff in Hc. unfold is_delim in Hc.
    apply orb_false_iff in Hc as [Hc Hclose].
    apply orb_false_iff in Hc as [Hspace Hopen].
    rewrite append_cons. simpl. rewrite Hspace, Hopen, Hclose.
    rewrite IH by done. f_equal.
    by rewrite append_assoc.
Qed.

Lemma lex_from_ends_word (w r : string) :
  ends_word r -> lex_from w r = flush w (lex r).
Proof.
  destruct r as [|c r]; simpl; intros Hr.
  - reflexivity.
  - unfold lex. simpl. unfold is_delim in Hr.
    destruct (is_space c); [reflexivity|].
    destruct (is_open c); [reflexivity|].
    destruct (is_close c); [reflexivity|]. discriminate.
Qed.

Lemma is_word_nonempty (s : string) : is_word s = true -> s <> "".
Proof.
  unfold is_word. intros [H _]%andb_true_iff ->. discriminate.
Qed.

Lemma lex_word (s r : string) :
  is_word s = true -> ends_word r -> lex (s +:+ r) = TWord s :: lex r.
Proof.
  intros Hs Hr. unfold lex at 1.
  pose proof (is_word_nonempty _ Hs) as Hne.
  apply andb_true_iff in Hs as [_ Hs].
  rewrite lex_from_no_delim by done. rewrite append_empty_l.
  rewrite lex_from_ends_word by done. by apply flush_nonempty.
Qed.

Lemma render_cdr_ends_word (d : obj) (rest : string) :
  ends_word (render_cdr d +:+ rest).
Proof. by destruct d. Qed.

(** Lexing a printed object gives its tokens. *)
Lemma lex_render (o : obj) :
  (readable o = true ->
   forall r, ends_word r -> lex (render o +:+ r) = tokens o ++ lex r)
  /\ (readable o = true -> is_str o = false ->
      forall r, lex (render_cdr o +:+ r) = tokens_cdr o ++ lex r).
Proof.
  induction o as [s| |a [IHa _] d [IHd IHcdr]]; split; simpl.
  - intros Hs r Hr. by apply lex_word.
  - discriminate.
  - intros _ r _. reflexivity.
  - intros _ _ r. reflexivity.
  - intros [[Ha Hstr%negb_true_iff]%andb_true_iff Hd]%andb_true_iff r _.
    rewrite !append_cons, append_empty_l, append_assoc.
    unfold lex at 1. simpl. fold (lex (render a +:+ render_cdr d +:+ r)).
    rewrite IHa by auto using render_cdr_ends_word.
    by rewrite IHcdr, app_assoc.
  - intros [[Ha Hstr%negb_true_iff]%andb_true_iff Hd]%andb_true_iff _ r.
    rewrite !append_cons, append_empty_l, append_assoc.
    unfold lex at 1. simpl. fold (lex (render a +:+ render_cdr d +:+ r)).
    rewrite IHa by auto using render_cdr_ends_word.
    by rewrite IHcdr, app_assoc.
Qed.

Lemma cons_onto_snoc (xs : list obj) (a d : obj) :
  cons_onto (xs ++ [a]) d = cons_onto xs (Pair a d).
Proof. unfold cons_onto. by rewrite foldr_app. Qed.

(** Reading the tokens of an object pushes that object. *)
Lemma parse_tokens_tokens (o : obj) :
  (readable o = true ->
   forall ts outer done,
     parse_tokens (tokens o ++ ts) outer done
     = parse_tokens ts outer (o :: done))
  /\ (readable o = true -> is_str o = false ->
      forall ts up outer done,
        parse_tokens (tokens_cdr o ++ ts) (up :: outer) done
        = parse_tokens ts outer (cons_onto (rev done) o :: up)).
Proof.
  induction o as [s| |a [IHa _] d [IHd IHcdr]]; split; simpl.
  - reflexivity.
  - discriminate.
  - reflexivity.
  - reflexivity.
  - intros [[Ha Hstr%negb_true_iff]%andb_true_iff Hd]%andb_true_iff
      ts outer done.
    rewrite <- app_assoc, IHa by done. by rewrite IHcdr.
  - intros [[Ha Hstr%negb_true_iff]%andb_true_iff Hd]%andb_true_iff _
      ts up outer done.
    rewrite <- app_assoc, IHa by done. rewrite IHcdr by done.
    simpl. by rewrite cons_onto_snoc.
Qed.

(** The round trip of the package: a readable object is read back as the
    one expression of its printed form. *)
Lemma parse_render (o : obj) :
  readable o = true -> parse (render o) = Ok [o].
Proof.
  intros Ho. unfold parse.
  rewrite <- (append_empty_r (render o)).
  rewrite (proj1 (lex_render o)) by done.
  by rewrite (proj1 (parse_tokens_tokens o)).
Qed.

End LibFacts.

(** ** Facts about [s_expression_render.py] *)

Module RenderFacts.
Import Lib Render LibFacts.

(** Induction on values with the hypothesis for all children. *)
Lemma value_ind_children (P : value -> Prop) :
  (forall s, P (Atom s)) ->
  (forall symbol children,
     Forall P children -> P (SExpression symbol children)) ->
  forall v, P v.
Proof.
  intros HAtom HSExp.
  fix IH 1. intros [s|symbol children].
  - apply HAtom.
  - apply HSExp. induction children as [|c cs IHcs]; constructor.
    + apply IH.
    + apply IHcs.
Qed.

Lemma each_cons {A B : Type} (f : A -> result B) (x : A) (xs : list A) :
  each f (x :: xs) = y ← f x; ys ← each f xs; Ok (y :: ys).
Proof. reflexivity. Qed.

(** A comprehension all of whose items succeed. *)
Lemma each_Forall2 {A B : Type} (f : A -> result B) (xs : list A)
    (ys : list B) :
  Forall2 (fun x y => f x = Ok y) xs ys -> each f xs = Ok ys.
Proof.
  induction 1 as [|x y xs ys Hx _ IH]; [reflexivity|].
  rewrite each_cons, Hx, IH. reflexivity.
Qed.

Lemma each_Ok_Forall2 {A B : Type} (f : A -> result B) (xs : list A)
    (ys : list B) :
  each f xs = Ok ys -> Forall2 (fun x y => f x = Ok y) xs ys.
Proof.
  revert ys. induction xs as [|x xs IH]; intros ys.
  - intros [= <-]. constructor.
  - rewrite each_cons. destruct (f x) as [y|e] eqn:Hx; [|discriminate].
    simpl. destruct (each f xs) as [ys'|e]; [|discriminate].
    intros [= <-]. constructor; auto.
Qed.

Lemma fold_left_rev_Pair (elements : list obj) (tl : obj) :
  fold_left (fun result element => Pair element result) (rev elements) tl
  = cons_onto elements tl.
Proof.
  unfold cons_onto. rewrite <- fold_left_rev_right, rev_involutive.
  reflexivity.
Qed.

(** [to_pair] on a node that is not rendered as a bare token. *)
Lemma to_pair_list (symbol : string) (children : list value)
    (for_stitch : bool) :
  for_stitch && bool_decide (children = []) = false ->
  to_pair (SExpression symbol children) for_stitch
  = rest ← each (fun x => to_pair x for_stitch) children;
    Ok (cons_onto (Str symbol :: rest) nil).
Proof.
  intros H. cbn [to_pair]. rewrite H.
  destruct (each _ children) as [rest|e]; [|reflexivity].
  cbn [mbind result_bind]. by rewrite fold_left_rev_Pair.
Qed.

Lemma to_pair_leaf (symbol : string) :
  to_pair (SExpression symbol []) true
  = Ok (Str (if startswith symbol "$" then symbol
             else "leaf-" +:+ symbol)).
Proof. simpl. by destruct (startswith symbol "$"). Qed.

(** [to_pair] succeeds on programs. *)
Lemma to_pair_total (e : value) (for_stitch : bool) :
  is_program e = true -> exists p, to_pair e for_stitch = Ok p.
Proof.
  induction e as [s|symbol children IH] using value_ind_children;
    [discriminate|].
  simpl is_program. intros Hch.
  assert (exists ps, each (fun x => to_pair x for_stitch) children = Ok ps)
    as [ps Hps].
  { induction IH as [|c cs Hc _ IHcs]; [by exists []|].
    simpl in Hch. apply andb_true_iff in Hch as [Hc' Hcs'].
    destruct (Hc Hc') as [p Hp]. destruct (IHcs Hcs') as [ps Hps].
    exists (p :: ps). by rewrite each_cons, Hp, Hps. }
  destruct (for_stitch && bool_decide (children = [])) eqn:Hleaf.
  - apply andb_true_iff in Hleaf as [-> ->%bool_decide_eq_true].
    rewrite to_pair_leaf. eauto.
  - rewrite to_pair_list, Hps by done. simpl. eauto.
Qed.

(** [from_pair] on a [Pair] is its loop followed by the unpacking of
    [elements]. *)
Lemma from_pair_Pair (car cdr : obj) (names : gset string)
    (for_stitch : bool) :
  from_pair (Pair car cdr) names for_stitch
  = elements ← from_pair_loop (fun c => from_pair c names for_stitch)
                 (Pair car cdr) [];
    match elements with
    | Atom head :: tail => Ok (SExpression head tail)
    | _ => Raise ValueError
    end.
Proof. reflexivity. Qed.

Lemma from_pair_Str (s : string) (names : gset string) (for_stitch : bool) :
  from_pair (Str s) names for_stitch = Ok (token_value s names for_stitch).
Proof.
  unfold token_value. simpl.
  destruct (for_stitch && startswith s "leaf-"); [done|].
  destruct (for_stitch && startswith s "$"); [done|].
  by destruct (bool_decide (s ∈ names)).
Qed.

Lemma startswith_cons (a b : ascii) (s pre : string) :
  startswith (String b s) (String a pre) = Ascii.eqb a b && startswith s pre.
Proof. reflexivity. Qed.

Lemma startswith_marker_not_prefix (s : string) :
  startswith s "$" = true -> startswith s "leaf-" = false.
Proof.
  destruct s as [|c s]; [by intros [=]|]. rewrite !startswith_cons.
  destruct (Ascii.eqb_spec "$" c) as [<-|]; [reflexivity|].
  by intros [? _]%andb_true_iff.
Qed.

(** A bare token that [to_pair] made of a leaf in stitch mode is read as
    that leaf. *)
Lemma token_value_leaf (symbol : string) (names : gset string) :
  token_value (if startswith symbol "$" then symbol
               else "leaf-" +:+ symbol) names true
  = SExpression symbol [].
Proof.
  unfold token_value.
  destruct (startswith symbol "$") eqn:Hm.
  - by rewrite (startswith_marker_not_prefix _ Hm), Hm.
  - reflexivity.
Qed.

(** The loop over the rest of a proper list converts its items in
    order. *)
Lemma from_pair_loop_rest (convert : obj -> result value)
    (ps : list obj) (vs elements : list value) :
  elements <> [] ->
  Forall2 (fun p v => convert p = Ok v) ps vs ->
  from_pair_loop convert (cons_onto ps nil) elements = Ok (elements ++ vs).
Proof.
  intros Hne H. revert elements Hne.
  induction H as [|p v ps vs Hp _ IH]; intros elements Hne.
  - simpl. by rewrite app_nil_r.
  - simpl. destruct elements as [|x xs]; [done|].
    rewrite Hp. cbn [mbind result_bind].
    unfold cons_onto in IH. rewrite IH by (by destruct xs).
    by rewrite <- app_assoc.
Qed.

(** On the pairs [to_pair] builds, [from_pair] is its inverse, whatever
    the symbols, the mode and the set of names. *)
Lemma from_pair_to_pair (e : value) (names : gset string)
    (for_stitch : bool) :
  is_program e = true ->
  exists p, to_pair e for_stitch = Ok p
            /\ from_pair p names for_stitch = Ok e.
Proof.
  induction e as [s|symbol children IH] using value_ind_children;
    [discriminate|].
  simpl is_program. intros Hch.
  destruct (for_stitch && bool_decide (children = [])) eqn:Hleaf.
  - apply andb_true_iff in Hleaf as [-> ->%bool_decide_eq_true].
    rewrite to_pair_leaf. eexists; split; [reflexivity|].
    rewrite from_pair_Str. f_equal. apply token_value_leaf.
  - assert (exists ps,
        Forall2 (fun x p => to_pair x for_stitch = Ok p) children ps
        /\ Forall2 (fun p v => from_pair p names for_stitch = Ok v)
             ps children) as (ps & Hto & Hfrom).
    { clear Hleaf. induction IH as [|c cs Hc _ IHcs].
      - exists []. split; constructor.
      - simpl in Hch. apply andb_true_iff in Hch as [Hc' Hcs'].
        destruct (Hc Hc') as (p & Hp & Hp').
        destruct (IHcs Hcs') as (ps & Hps & Hps').
        exists (p :: ps). split; by constructor. }
    rewrite to_pair_list by done.
    rewrite (each_Forall2 _ _ _ Hto). cbn [mbind result_bind].
    eexists; split; [reflexivity|].
    change (cons_onto (Str symbol :: ps) nil)
      with (Pair (Str symbol) (cons_onto ps nil)).
    rewrite from_pair_Pair.
    change (from_pair_loop ?f (Pair (Str symbol) ?d) [])
      with (from_pair_loop f d [Atom symbol]).
    assert ([Atom symbol] <> []) as Hne by discriminate.
    by rewrite (from_pair_loop_rest _ _ _ _ Hne Hfrom).
Qed.

Lemma no_delim_append (a b : string) :
  no_delim (a +:+ b) = no_delim a && no_delim b.
Proof.
  induction a as [|c a IH]; [reflexivity|].
  rewrite append_cons. simpl. by rewrite IH, andb_assoc.
Qed.

Lemma is_word_prefixed (s : string) :
  no_delim s = true -> is_word ("leaf-" +:+ s) = true.
Proof.
  intros Hs. unfold is_word. rewrite no_delim_append, Hs. reflexivity.
Qed.

Lemma is_word_no_delim (s : string) : is_word s = true -> no_delim s = true.
Proof. by intros [_ ?]%andb_true_iff. Qed.

Lemma readable_cons_onto (items : list obj) :
  forallb readable items = true -> readable (cons_onto items nil) = true.
Proof.
  induction items as [|x items IH]; [reflexivity|].
  intros [Hx Hitems]%andb_true_iff.
  change (cons_onto (x :: items) nil) with (Pair x (cons_onto items nil)).
  simpl. rewrite Hx, (IH Hitems). by destruct items.
Qed.

(** The token a leaf is rendered as in stitch mode is a word as soon as
    the symbol holds no delimiter. *)
Lemma leaf_token_is_word (symbol : string) :
  no_delim symbol = true ->
  is_word (if startswith symbol "$" then symbol else "leaf-" +:+ symbol)
  = true.
Proof.
  intros Hs. destruct (startswith symbol "$") eqn:Hm.
  - unfold is_word. rewrite Hs. by destruct symbol.
  - by apply is_word_prefixed.
Qed.

(** Programs whose symbols are words are converted to readable
    objects. *)
Lemma to_pair_readable (e : value) (for_stitch : bool) (p : obj) :
  is_program e = true -> all_symbols is_word e = true ->
  to_pair e for_stitch = Ok p -> readable p = true.
Proof.
  revert p.
  induction e as [s|symbol children IH] using value_ind_children;
    [discriminate|].
  simpl is_program. simpl all_symbols.
  intros p Hprog [Hsym Hsyms]%andb_true_iff.
  destruct (for_stitch && bool_decide (children = [])) eqn:Hleaf.
  - apply andb_true_iff in Hleaf as [-> ->%bool_decide_eq_true].
    rewrite to_pair_leaf. intros [= <-]. simpl.
    by apply leaf_token_is_word, is_word_no_delim.
  - rewrite to_pair_list by done.
    destruct (each _ children) as [ps|] eqn:Hps; [|discriminate].
    intros [= <-]. apply (readable_cons_onto (Str symbol :: ps)).
    simpl. rewrite Hsym. simpl.
    apply each_Ok_Forall2 in Hps. clear Hleaf.
    induction Hps as [|c q cs qs Hq _ IHqs]; [reflexivity|].
    simpl in Hprog, Hsyms.
    apply andb_true_iff in Hprog as [Hc Hcs].
    apply andb_true_iff in Hsyms as [Hc' Hcs'].
    apply Forall_cons in IH as [IHc IHcs].
    simpl. rewrite (IHc q Hc Hc' Hq). by apply IHqs.
Qed.

(** The round trip through text.  It asks of the symbols only that they
    are words; the mode and the set of names are arbitrary. *)
Lemma parse_render_program (e : value) (names : option (gset string))
    (for_stitch : bool) :
  is_program e = true -> all_symbols is_word e = true ->
  exists text, render_s_expression e for_stitch = Ok text
               /\ parse_s_expression text names for_stitch = Ok e.
Proof.
  intros Hprog Hsyms.
  destruct (from_pair_to_pair e (default ∅ names) for_stitch Hprog)
    as (p & Hto & Hfrom).
  pose proof (to_pair_readable _ _ _ Hprog Hsyms Hto) as Hread.
  exists (render p). unfold render_s_expression, parse_s_expression.
  rewrite Hto. split; [reflexivity|].
  by rewrite (parse_render _ Hread).
Qed.

(** The same for a leaf in stitch mode, whose symbol may even be
    empty. *)
Lemma parse_render_stitch_leaf (symbol : string)
    (names : option (gset string)) :
  no_delim symbol = true ->
  exists text, render_s_expression (SExpression symbol []) true = Ok text
               /\ parse_s_expression text names true
                  = Ok (SExpression symbol []).
Proof.
  intros Hs. unfold render_s_expression, parse_s_expression.
  rewrite to_pair_leaf. eexists; split; [reflexivity|].
  rewrite parse_render by (by apply leaf_token_is_word).
  cbn [mbind result_bind length Nat.eqb negb].
  by rewrite from_pair_Str, token_value_leaf.
Qed.

End RenderFacts.

(** ** Statements about rendering and parsing *)

Section RenderClaims.
Import Lib Render LibFacts RenderFacts.

Lemma render_cdr_cons_onto (ps : list obj) :
  render_cdr (cons_onto ps nil) = spaced (map render ps) +:+ ")".
Proof.
  induction ps as [|p ps IH]; [reflexivity|].
  change (cons_onto (p :: ps) nil) with (Pair p (cons_onto ps nil)).
  simpl. by rewrite IH, !append_assoc.
Qed.

Lemma parse_single_word (s : string) : is_word s = true -> parse s = Ok [Str s].
Proof. intros Hs. by apply (parse_render (Str s)). Qed.

Lemma each_symbols_for_program (children : list value) :
  Forall (fun c => is_program c = true ->
                   symbols_for_program c = Ok (preorder c)) children ->
  forallb is_program children = true ->
  each symbols_for_program children = Ok (map preorder children).
Proof.
  induction 1 as [|c cs Hc _ IH]; [reflexivity|].
  intros [Hc' Hcs]%andb_true_iff.
  by rewrite each_cons, (Hc Hc'), (IH Hcs).
Qed.

Lemma symbols_for_program_program (s : value) :
  is_program s = true -> symbols_for_program s = Ok (preorder s).
Proof.
  induction s as [a|symbol children IH] using value_ind_children;
    [discriminate|].
  simpl. intros Hch.
  rewrite (each_symbols_for_program _ IH Hch). simpl.
  by rewrite flat_map_concat_map.
Qed.

Lemma length_preorder (s : value) :
  is_program s = true -> length (preorder s) = node_count s.
Proof.
  induction s as [a|symbol children IH] using value_ind_children;
    [discriminate|].
  simpl. intros Hch. f_equal.
  induction IH as [|c cs Hc _ IHcs]; [reflexivity|].
  apply andb_true_iff in Hch as [Hc' Hcs].
  simpl. by rewrite length_app, (Hc Hc'), (IHcs Hcs).
Qed.

(** The program the breadth-first test expects, in both modes. *)
Example render_near_solution :
  let one := SExpression "one" [] in
  let add a b := SExpression "int_int_add" [a; b] in
  let e := add one (add one (add one one)) in
  render_s_expression e false
  = Ok "(int_int_add (one) (int_int_add (one) (int_int_add (one) (one))))"
  /\ render_s_expression e true
     = Ok "(int_int_add leaf-one (int_int_add leaf-one (int_int_add leaf-one leaf-one)))"
  /\ parse_s_expression
       "(int_int_add leaf-one (int_int_add leaf-one (int_int_add leaf-one leaf-one)))"
       None true
     = Ok e.
Proof. split; [|split]; reflexivity. Qed.

(** Unbalanced parentheses and a list without a head are errors too. *)
Example parse_failures :
  parse_s_expression "(f x" None false = Raise SyntaxError
  /\ parse_s_expression "()" None false = Raise AssertionError
  /\ parse_s_expression "(f ())" None false = Raise AssertionError.
Proof. split; [|split]; reflexivity. Qed.

(** C1, as amended.  For every symbolic program whose symbols avoid the
    reserved prefix and marker and are words (not empty, free of white
    space and parentheses), and for every set of names holding the symbols
    of its zero-child nodes, parsing the rendering gives the program back,
    in either mode. *)
Theorem render_parse_round_trip (e : value) (names : gset string)
    (for_stitch : bool) :
  is_program e = true ->
  all_symbols unreserved e = true ->
  leaves_within names e = true ->
  all_symbols is_word e = true ->
  exists text,
    render_s_expression e for_stitch = Ok text
    /\ parse_s_expression text (Some names) for_stitch = Ok e.
Proof. intros Hprog _ _ Hwords. by apply parse_render_program. Qed.

Lemma render_parse_round_trip_witness :
  exists text,
    render_s_expression
      (SExpression "add" [SExpression "one" []; SExpression "x" []]) true
    = Ok text
    /\ parse_s_expression text (Some {["one"; "x"]}) true
       = Ok (SExpression "add" [SExpression "one" []; SExpression "x" []]).
Proof. apply render_parse_round_trip; reflexivity. Defined.

(** C1 as first stated fails for a symbol that holds a space: the
    rendering [(a b)] is read as the symbol [a] applied to [b]. *)
Lemma round_trip_breaks_on_space :
  let e := SExpression "a b" [] in
  let names : gset string := {["a b"]} in
  is_program e = true
  /\ all_symbols unreserved e = true
  /\ leaves_within names e = true
  /\ render_s_expression e false = Ok "(a b)"
  /\ parse_s_expression "(a b)" (Some names) false
     = Ok (SExpression "a" [Atom "b"])
  /\ ~ (exists text,
          render_s_expression e false = Ok text
          /\ parse_s_expression text (Some names) false = Ok e).
Proof.
  repeat split; try reflexivity.
  intros (text & Hr & Hp). vm_compute in Hr. injection Hr as <-.
  vm_compute in Hp. discriminate Hp.
Qed.

(** C2, as amended.  A string that holds zero or more than one top-level
    expression makes [parse_s_expression] raise [ValueError], which is the
    outcome of the call. *)
Theorem wrong_count_raises (s : string) (names : option (gset string))
    (for_stitch : bool) (n : nat) :
  top_level_count s n -> n <> 1%nat ->
  parse_s_expression s names for_stitch = Raise ValueError.
Proof.
  intros (pairs & Hparse & <-) Hn. unfold parse_s_expression.
  rewrite Hparse. cbn [mbind result_bind].
  destruct (Nat.eqb_spec (length pairs) 1); [done|reflexivity].
Qed.

Lemma wrong_count_raises_witness :
  parse_s_expression "" None false = Raise ValueError
  /\ parse_s_expression "(f x) y" None true = Raise ValueError.
Proof.
  split.
  - apply (wrong_count_raises "" None false 0); [|lia].
    exists []. split; reflexivity.
  - apply (wrong_count_raises "(f x) y" None true 2); [|lia].
    eexists. split; reflexivity.
Defined.

(** C2 as first stated fails in the other direction: [((f) x)] holds
    exactly one top-level expression and still makes the call raise. *)
Lemma one_expression_may_raise :
  let s := "((f) x)" in
  raises (parse_s_expression s None false)
  /\ top_level_count s 1
  /\ ~ (raises (parse_s_expression s None false)
        <-> top_level_count s 0
            \/ exists n, (1 < n)%nat /\ top_level_count s n).
Proof.
  assert (top_level_count "((f) x)" 1) as Hone
    by (eexists; split; reflexivity).
  assert (raises (parse_s_expression "((f) x)" None false)) as Hraise
    by (by exists AssertionError).
  repeat split; try done.
  intros [Hiff _]. destruct (Hiff Hraise) as [H0|(n & Hn & Hcount)].
  - destruct H0 as (pairs & Hp & Hlen). vm_compute in Hp.
    injection Hp as <-. discriminate Hlen.
  - destruct Hcount as (pairs & Hp & Hlen). vm_compute in Hp.
    injection Hp as <-. simpl in Hlen. lia.
Qed.

(** C3.  In stitch mode a zero-child node is rendered as its symbol when
    the symbol starts with the marker and as the prefixed symbol
    otherwise; a node with children is rendered, in both modes, as the
    parenthesized list of its symbol and its rendered children. *)
Theorem render_shapes (symbol : string) (children : list value)
    (for_stitch : bool) :
  forallb is_program children = true ->
  (children = [] ->
   render_s_expression (SExpression symbol children) true
   = Ok (if startswith symbol "$" then symbol else "leaf-" +:+ symbol))
  /\ (children <> [] ->
      exists items,
        Forall2 (fun c item => render_s_expression c for_stitch = Ok item)
                children items
        /\ render_s_expression (SExpression symbol children) for_stitch
           = Ok ("(" +:+ symbol +:+ spaced items +:+ ")")).
Proof.
  intros Hch. split.
  - intros ->. unfold render_s_expression. by rewrite to_pair_leaf.
  - intros Hne.
    assert (exists ps,
      Forall2 (fun c p => to_pair c for_stitch = Ok p) children ps)
      as [ps Hps].
    { clear Hne. induction children as [|c cs IH]; [by exists []|].
      apply andb_true_iff in Hch as [Hc Hcs].
      destruct (to_pair_total c for_stitch Hc) as [p Hp].
      destruct (IH Hcs) as [ps Hps]. exists (p :: ps). by constructor. }
    exists (map render ps). split.
    + clear Hne Hch. induction Hps as [|c p cs ps Hp _ IH]; simpl.
      * constructor.
      * constructor; [|done]. unfold render_s_expression. by rewrite Hp.
    + unfold render_s_expression. rewrite to_pair_list.
      * rewrite (each_Forall2 _ _ _ Hps). cbn [mbind result_bind].
        change (cons_onto (Str symbol :: ps) nil)
          with (Pair (Str symbol) (cons_onto ps nil)).
        simpl. by rewrite render_cdr_cons_onto.
      * apply andb_false_iff. right. by apply bool_decide_eq_false.
Qed.

Lemma render_shapes_witness :
  (render_s_expression (SExpression "$0" []) true = Ok "$0")
  /\ (exists items,
        Forall2 (fun c item => render_s_expression c true = Ok item)
                [SExpression "x" []; SExpression "g" [SExpression "$1" []]]
                items
        /\ render_s_expression
             (SExpression "f"
                [SExpression "x" []; SExpression "g" [SExpression "$1" []]])
             true
           = Ok ("(" +:+ "f" +:+ spaced items +:+ ")")).
Proof.
  split.
  - by apply (render_shapes "$0" [] true).
  - by apply (render_shapes "f"
                [SExpression "x" []; SExpression "g" [SExpression "$1" []]]
                true).
Defined.

(** C4, as amended.  A string that is one bare token is read as follows:
    in stitch mode a token with the reserved prefix is the zero-child
    node of the rest of the token, and a token starting with the marker
    is the zero-child node of the token; otherwise the token is a
    zero-child node when it is among the names and the bare string itself
    when it is not. *)
Theorem bare_token_value (s : string) (names : option (gset string))
    (for_stitch : bool) :
  is_word s = true ->
  parse_s_expression s names for_stitch
  = Ok (token_value s (default ∅ names) for_stitch).
Proof.
  intros Hs. unfold parse_s_expression.
  rewrite parse_single_word by done.
  cbn [mbind result_bind length Nat.eqb negb].
  apply from_pair_Str.
Qed.

Lemma bare_token_value_witness :
  parse_s_expression "leaf-one" None true = Ok (SExpression "one" [])
  /\ parse_s_expression "one" (Some {["one"]}) false
     = Ok (SExpression "one" [])
  /\ parse_s_expression "one" None true = Ok (Atom "one").
Proof.
  split; [|split].
  - by apply (bare_token_value "leaf-one" None true).
  - exact (bare_token_value "one" (Some {["one"]}) false eq_refl).
  - by apply (bare_token_value "one" None true).
Defined.

(** C4 as first stated fails: with no names given, the bare token [x] is
    read as the string [x], not as a node. *)
Lemma bare_token_may_stay_a_string :
  is_word "x" = true
  /\ parse_s_expression "x" None false = Ok (Atom "x")
  /\ parse_s_expression "x" None false <> Ok (SExpression "x" []).
Proof. repeat split; discriminate. Qed.

(** C8.  When the one top-level expression of the input is a list whose
    head is not a token, the assertion of [from_pair] fails and the call
    raises. *)
Theorem head_not_token_raises (s : string) (names : option (gset string))
    (for_stitch : bool) (car cdr : obj) :
  parse s = Ok [Pair car cdr] -> is_str car = false ->
  parse_s_expression s names for_stitch = Raise AssertionError.
Proof.
  intros Hparse Hcar. unfold parse_s_expression. rewrite Hparse.
  cbn [mbind result_bind length Nat.eqb negb].
  rewrite from_pair_Pair. by destruct car.
Qed.

Lemma head_not_token_raises_witness :
  parse_s_expression "((f) x)" None false = Raise AssertionError.
Proof.
  by apply (head_not_token_raises "((f) x)" None false
              (Pair (Str "f") nil) (Pair (Str "x") nil)).
Defined.

(** C9, as amended.  In stitch mode a zero-child node whose symbol holds
    neither white space nor a parenthesis goes through rendering and
    parsing unchanged, whatever the set of names, the empty one
    included. *)
Theorem stitch_leaf_round_trip (symbol : string)
    (names : option (gset string)) :
  no_delim symbol = true ->
  exists text,
    render_s_expression (SExpression symbol []) true = Ok text
    /\ parse_s_expression text names true = Ok (SExpression symbol []).
Proof. apply parse_render_stitch_leaf. Qed.

Lemma stitch_leaf_round_trip_witness :
  (exists text,
     render_s_expression (SExpression "one" []) true = Ok text
     /\ parse_s_expression text None true = Ok (SExpression "one" []))
  /\ (exists text,
        render_s_expression (SExpression "$3" []) true = Ok text
        /\ parse_s_expression text (Some ∅) true
           = Ok (SExpression "$3" [])).
Proof.
  split.
  - by apply (stitch_leaf_round_trip "one" None).
  - by apply (stitch_leaf_round_trip "$3" (Some ∅)).
Defined.

(** C9 as first stated fails for a symbol that holds a space: the
    rendering [leaf-a b] is two top-level expressions. *)
Lemma stitch_leaf_breaks_on_space :
  render_s_expression (SExpression "a b" []) true = Ok "leaf-a b"
  /\ parse_s_expression "leaf-a b" None true = Raise ValueError
  /\ ~ (exists text,
          render_s_expression (SExpression "a b" []) true = Ok text
          /\ parse_s_expression text None true
             = Ok (SExpression "a b" [])).
Proof.
  repeat split.
  intros (text & Hr & Hp). vm_compute in Hr. injection Hr as <-.
  vm_compute in Hp. discriminate Hp.
Qed.

(** C10.  [symbols_for_program] lists the symbols of a program in
    preorder, the root first and then the children from left to right;
    the list is as long as the program has nodes. *)
Theorem symbols_for_program_preorder (s : value) :
  is_program s = true ->
  symbols_for_program s = Ok (preorder s)
  /\ length (preorder s) = node_count s.
Proof.
  intros Hs. split.
  - by apply symbols_for_program_program.
  - by apply length_preorder.
Qed.

Lemma symbols_for_program_preorder_witness :
  symbols_for_program
    (SExpression "add" [SExpression "one" [];
                        SExpression "add" [SExpression "x" []]])
  = Ok ["add"; "one"; "add"; "x"]
  /\ length ["add"; "one"; "add"; "x"] = 4%nat.
Proof.
  by apply (symbols_for_program_preorder
              (SExpression "add" [SExpression "one" [];
                                  SExpression "add" [SExpression "x" []]])).
Defined.

End RenderClaims.

(** ** Statements about productions *)

Section ProductionClaims.
Import Production.
Context {V R TypeSignature World : Type}.

(** The assertion of the stateless variant does fire on any other
    state. *)
Lemma concrete_rejects_state (p : ConcreteProduction V R TypeSignature)
    (state : gmap string V) (inputs : list V) :
  state <> ∅ ->
  compute_on_pytorch (World := World) p state inputs = Raise AssertionError.
Proof. intros Hne. simpl. by destruct (decide (state = ∅)). Qed.

(** C6.  For a parameterized production, [initialize] is the call of
    [_initialize], and [compute_on_pytorch] on such a state is the
    underlying computation on the positional inputs with the entries of
    the state as keyword arguments. *)
Theorem parameterized_compute
    (p : ParameterizedProduction V R TypeSignature World) (w : World)
    (inputs : list V) :
  initialize p w = _initialize p w
  /\ compute_on_pytorch p (fst (initialize p w)) inputs
     = Ok (_compute_on_pytorch p inputs (fst (_initialize p w))).
Proof. split; reflexivity. Qed.

(** C7.  For a stateless production, [initialize] returns the empty
    state, the assertion of [compute_on_pytorch] passes on it, and the
    result is the underlying computation on the positional inputs, with
    no keyword argument. *)
Theorem concrete_compute (p : ConcreteProduction V R TypeSignature)
    (w : World) (inputs : list V) :
  fst (initialize p w) = ∅
  /\ compute_on_pytorch (World := World) p (fst (initialize p w)) inputs
     = Ok (_compute_on_pytorch p inputs ∅).
Proof.
  split; [reflexivity|]. simpl. by destruct (decide (∅ = ∅)).
Qed.

End ProductionClaims.

(** ** Statements about bounded best-first search *)

Module SearchFacts.
Import Search.

Section Termination.
Context {node : Type}.
Variable g : SearchGraph node.
Variable cost : node -> Z.
Variable max_depth : nat.

#[local] Abbreviation entry_work := (entry_work g max_depth).
#[local] Abbreviation frontier_work := (frontier_work g max_depth).
#[local] Abbreviation step := (step g cost max_depth).
#[local] Abbreviation run := (run g cost max_depth).

Lemma entry_work_positive (e : entry) : (0 < entry_work e)%nat.
Proof.
  unfold Search.entry_work. destruct (S max_depth - e_depth e)%nat; simpl; lia.
Qed.

Lemma frontier_work_zero (q : list (@entry node)) :
  frontier_work q = 0%nat -> q = [].
Proof.
  destruct q as [|e q]; [done|]. unfold Search.frontier_work. simpl.
  pose proof (entry_work_positive e). lia.
Qed.

Lemma frontier_work_enqueue (e : entry) (q : list entry) :
  frontier_work (enqueue e q) = (entry_work e + frontier_work q)%nat.
Proof.
  unfold Search.frontier_work.
  induction q as [|x q IH]; simpl; [lia|].
  destruct (precedes e x); simpl; lia.
Qed.

Lemma frontier_work_push (depth : nat) (ns : list node)
    (st : frontier_state) :
  frontier_work (frontier (foldl (push cost depth) st ns))
  = (list_sum (map (work g (S max_depth - depth)) ns)
     + frontier_work (frontier st))%nat.
Proof.
  revert st. induction ns as [|n ns IH]; intros st; [reflexivity|].
  simpl. rewrite IH. unfold push. cbn [frontier].
  rewrite frontier_work_enqueue. unfold Search.entry_work. simpl. lia.
Qed.

(** Every turn takes one unit of work off the frontier. *)
Lemma step_work (st : frontier_state) :
  frontier st <> [] ->
  exists out st',
    step st = Some (out, st')
    /\ S (frontier_work (frontier st')) = frontier_work (frontier st).
Proof.
  unfold Search.step. destruct (frontier st) as [|e rest]; [done|].
  intros _. destruct (Nat.ltb_spec max_depth (e_depth e)) as [Hdeep|Hok].
  - eexists _, _. split; [reflexivity|]. simpl.
    unfold Search.frontier_work at 2. simpl. unfold Search.entry_work at 1.
    replace (S max_depth - e_depth e)%nat with 0%nat by lia.
    reflexivity.
  - eexists _, _. split; [reflexivity|].
    rewrite frontier_work_push. simpl.
    unfold Search.frontier_work at 2. simpl. unfold Search.entry_work at 1.
    replace (S max_depth - e_depth e)%nat
      with (S (max_depth - e_depth e)) by lia.
    simpl. reflexivity.
Qed.

Lemma step_empty (st : frontier_state) :
  frontier st = [] -> step st = None.
Proof. unfold Search.step. by intros ->. Qed.

(** As many turns as there is work exhaust the frontier. *)
Lemma run_exhausts (turns : nat) (st : frontier_state) :
  (frontier_work (frontier st) <= turns)%nat ->
  frontier (snd (run turns st)) = [].
Proof.
  revert st. induction turns as [|turns IH]; intros st Hwork.
  - simpl. apply frontier_work_zero. lia.
  - simpl. destruct (frontier st) as [|e rest] eqn:Hq.
    + by rewrite step_empty.
    + destruct (step_work st) as (out & st' & -> & Hless);
        [by rewrite Hq|].
      specialize (IH st'). destruct (run turns st') as [outs final].
      simpl. apply IH. rewrite Hq in Hless. lia.
Qed.

(** Once the frontier is exhausted, further turns change nothing. *)
Lemma run_stable (turns more : nat) (st : frontier_state) :
  frontier (snd (run turns st)) = [] -> (turns <= more)%nat ->
  run more st = run turns st.
Proof.
  revert more st. induction turns as [|turns IH]; intros more st Hend Hle.
  - simpl in *. destruct more; simpl; [done|]. by rewrite step_empty.
  - destruct more as [|more]; [lia|]. simpl in *.
    destruct (step st) as [[out st']|]; [|done].
    specialize (IH more st').
    destruct (run turns st') as [outs final].
    simpl in Hend. rewrite IH by (done || lia). reflexivity.
Qed.
End Termination.

(** The grammar of the scenarios has a chain that never ends. *)
Lemma left_nested_expands (i : nat) :
  exists next,
    expand_leftmost arith_dsl (left_nested i) = Some next
    /\ In (left_nested (S i)) next.
Proof.
  induction i as [|i (next & Hnext & Hin)].
  - eexists. split; [reflexivity|]. right. left. reflexivity.
  - change (left_nested (S i))
      with (Apply "add" [left_nested i; Hole "int"]) at 1.
    simpl expand_leftmost. rewrite Hnext.
    eexists. split; [reflexivity|].
    apply in_map_iff. exists (left_nested (S i)). by split.
Qed.

Lemma left_nested_chain (is_goal : partial string -> bool) :
  infinite_chain (dsl_graph arith_dsl "int" is_goal) left_nested.
Proof.
  split; [reflexivity|]. intros i. simpl.
  destruct (left_nested_expands i) as (next & -> & Hin). exact Hin.
Qed.

End SearchFacts.

Section SearchClaims.
Import Search SearchFacts.

(** The scenarios of the design: with the bound 1 nothing evaluating to 4
    is found and the search ends; with the bound 3 the program
    [add(one, one)] is the one result evaluating to 2. *)
Example depth_cap_respected :
  let g := dsl_graph arith_dsl "int" (evaluates_to 4) in
  bounded_astar g (fun _ => 0%Z) 1 100
  = ([], {| frontier := []; discovered := 5 |}).
Proof. vm_compute. reflexivity. Qed.

Example shallow_solution_found :
  let g := dsl_graph arith_dsl "int" (evaluates_to 2) in
  fst (bounded_astar g (fun _ => 0%Z) 3 1000)
  = [Apply "add" [Apply "one" []; Apply "one" []]].
Proof. vm_compute. reflexivity. Qed.

(** C5.  On a graph with a chain that never ends, and for every bound on
    the depth, bounded best-first search drops every popped entry deeper
    than the bound without expanding it, and after finitely many turns
    the frontier is exhausted, so that what has been yielded by then is
    the whole sequence, goal or no goal. *)
Theorem bounded_astar_terminates {node : Type} (g : SearchGraph node)
    (cost : node -> Z) (max_depth : nat) (chain : nat -> node) :
  infinite_chain g chain ->
  (forall st e rest,
     frontier st = e :: rest -> (max_depth < e_depth e)%nat ->
     step g cost max_depth st
     = Some ([], {| frontier := rest; discovered := discovered st |}))
  /\ exists turns,
       frontier (snd (bounded_astar g cost max_depth turns)) = []
       /\ forall more, (turns <= more)%nat ->
            bounded_astar g cost max_depth more
            = bounded_astar g cost max_depth turns.
Proof.
  intros _. split.
  - intros st e rest Hq Hdeep. unfold step. rewrite Hq.
    by destruct (Nat.ltb_spec max_depth (e_depth e)); [|lia].
  - exists (frontier_work g max_depth (frontier (start g cost))).
    assert (frontier (snd (bounded_astar g cost max_depth
              (frontier_work g max_depth (frontier (start g cost))))) = [])
      as Hend by (by apply run_exhausts).
    split; [done|]. intros more Hle. by apply run_stable.
Qed.

Lemma bounded_astar_terminates_witness :
  let g := dsl_graph arith_dsl "int" (fun _ => false) in
  exists turns,
    frontier (snd (bounded_astar g (fun _ => 0%Z) 2 turns)) = []
    /\ forall more, (turns <= more)%nat ->
         bounded_astar g (fun _ => 0%Z) 2 more
         = bounded_astar g (fun _ => 0%Z) 2 turns.
Proof.
  exact (proj2 (bounded_astar_terminates
                  (dsl_graph arith_dsl "int" (fun _ => false))
                  (fun _ => 0%Z) 2 left_nested
                  (left_nested_chain (fun _ => false)))).
Defined.

End SearchClaims.

(** ** Further facts about the conversions *)

Module ConversionFacts.
Import Lib Render LibFacts RenderFacts.

(** Induction on objects seen as lists: the hypothesis holds for the head
    and for every item after it. *)
Lemma obj_items_ind (P : obj -> Prop) :
  (forall s, P (Str s)) ->
  P nil ->
  (forall a d, P a -> Forall P (items d) -> P (Pair a d)) ->
  forall o, P o.
Proof.
  intros HStr Hnil HPair o.
  enough (P o /\ Forall P (items o)) by tauto.
  induction o as [s| |a [IHa _] d [_ IHd]]; simpl.
  - split; [apply HStr|constructor].
  - split; [apply Hnil|constructor].
  - split; [by apply HPair|by constructor].
Qed.

Lemma raises_bind {A B : Type} (m : result A) (k : A -> result B) :
  raises m -> raises (x ← m; k x).
Proof. intros [e ->]. by exists e. Qed.

(** What a successful run of the loop says about the chain it walked. *)
Lemma from_pair_loop_inv (convert : obj -> result value) (d : obj) :
  forall elements res,
    elements <> [] ->
    from_pair_loop convert d elements = Ok res ->
    d = cons_onto (items d) nil
    /\ exists vs,
         Forall2 (fun p v => convert p = Ok v) (items d) vs
         /\ res = elements ++ vs.
Proof.
  induction d as [s| |a _ d IHd]; intros elements res Hne; simpl.
  - discriminate.
  - intros [= <-]. split; [reflexivity|].
    exists []. split; [constructor|by rewrite app_nil_r].
  - destruct elements as [|x xs]; [done|].
    destruct (convert a) as [v|] eqn:Ha; [|discriminate].
    cbn [mbind result_bind]. intros Hloop.
    apply IHd in Hloop as (Hd & vs & Hvs & ->); [|by destruct xs].
    split.
    + unfold cons_onto in *. simpl. by rewrite <- Hd.
    + exists (v :: vs). split; [by constructor|].
      by rewrite <- app_assoc.
Qed.

(** A list is converted to the node of its head and of its converted
    items. *)
Lemma from_pair_list (h : string) (d : obj) (vs : list value)
    (names : gset string) (for_stitch : bool) :
  d = cons_onto (items d) nil ->
  Forall2 (fun p v => from_pair p names for_stitch = Ok v) (items d) vs ->
  from_pair (Pair (Str h) d) names for_stitch = Ok (SExpression h vs).
Proof.
  intros Hd Hvs. rewrite from_pair_Pair.
  change (from_pair_loop ?f (Pair (Str h) d) [])
    with (from_pair_loop f d [Atom h]).
  assert ([Atom h] <> []) as Hne by discriminate.
  rewrite Hd. by rewrite (from_pair_loop_rest _ _ _ _ Hne Hvs).
Qed.

Lemma from_pair_list_inv (a d : obj) (v : value) (names : gset string)
    (for_stitch : bool) :
  from_pair (Pair a d) names for_stitch = Ok v ->
  exists h vs,
    a = Str h
    /\ d = cons_onto (items d) nil
    /\ Forall2 (fun p w => from_pair p names for_stitch = Ok w)
               (items d) vs
    /\ v = SExpression h vs.
Proof.
  rewrite from_pair_Pair.
  destruct (from_pair_loop _ (Pair a d) []) as [res|] eqn:Hloop;
    [|discriminate].
  cbn [mbind result_bind]. intros Hv.
  destruct a as [h| |]; simpl in Hloop; try discriminate.
  apply from_pair_loop_inv in Hloop as (Hd & vs & Hvs & ->);
    [|discriminate].
  injection Hv as <-. by exists h, vs.
Qed.

Lemma convertible_items_spec (d : obj) :
  convertible_items d = true
  <-> d = cons_onto (items d) nil /\ forallb convertible (items d) = true.
Proof.
  induction d as [s| |a _ d IHd]; simpl.
  - split; [discriminate|]. by intros [[=] _].
  - done.
  - rewrite !andb_true_iff, IHd. unfold cons_onto. simpl.
    split.
    + intros (Ha & Hd & Hitems). by rewrite <- Hd.
    + intros ([= Hd] & Ha & Hitems). done.
Qed.

(** [from_pair] succeeds exactly on the convertible objects. *)
Lemma from_pair_succeeds_iff (o : obj) (names : gset string)
    (for_stitch : bool) :
  (exists v, from_pair o names for_stitch = Ok v) <-> convertible o = true.
Proof.
  induction o as [s| |a d _ IHd] using obj_items_ind.
  - split; [done|]. intros _. rewrite from_pair_Str. eauto.
  - split; [by intros [v [=]]|discriminate].
  - simpl convertible. rewrite andb_true_iff, convertible_items_spec. split.
    + intros [v Hv].
      apply from_pair_list_inv in Hv as (h & vs & -> & Hd & Hvs & ->).
      split; [reflexivity|]. split; [done|].
      clear Hd. induction Hvs as [|p w ps ws Hp _ IH]; [reflexivity|].
      apply Forall_cons in IHd as [IHp IHps]. simpl.
      rewrite (proj1 IHp) by eauto. by apply IH.
    + intros (Ha & Hd & Hitems). destruct a as [h| |]; try discriminate.
      assert (exists vs,
        Forall2 (fun p w => from_pair p names for_stitch = Ok w)
                (items d) vs) as [vs Hvs].
      { clear Hd. induction (items d) as [|p ps IH]; [by exists []|].
        apply Forall_cons in IHd as [IHp IHps].
        simpl in Hitems. apply andb_true_iff in Hitems as [Hp Hps].
        destruct (proj2 IHp Hp) as [w Hw].
        destruct (IH IHps Hps) as [ws Hws].
        exists (w :: ws). by constructor. }
      exists (SExpression h vs). by apply from_pair_list.
Qed.

(** A comprehension over items that either succeed or raise [e] raises
    [e] as soon as one item is of the second kind. *)
Lemma each_raises {A B : Type} (f : A -> result B) (good : A -> bool)
    (e : exn) (xs : list A) :
  Forall (fun x => (good x = true -> exists y, f x = Ok y)
                   /\ (good x = false -> f x = Raise e)) xs ->
  forallb good xs = false -> each f xs = Raise e.
Proof.
  induction 1 as [|x xs [Hgood Hbad] _ IH]; [discriminate|].
  simpl forallb. rewrite each_cons. destruct (good x).
  - destruct Hgood as [y ->]; [done|]. intros Hxs.
    cbn [mbind result_bind]. by rewrite (IH Hxs).
  - intros _. by rewrite Hbad.
Qed.

Lemma each_succeeds {A B : Type} (f : A -> result B) (good : A -> bool)
    (xs : list A) :
  Forall (fun x => good x = true -> exists y, f x = Ok y) xs ->
  forallb good xs = true -> exists ys, each f xs = Ok ys.
Proof.
  induction 1 as [|x xs Hx _ IH]; [by exists []|].
  intros [Hgood Hxs]%andb_true_iff.
  destruct (Hx Hgood) as [y Hy]. destruct (IH Hxs) as [ys Hys].
  exists (y :: ys). by rewrite each_cons, Hy, Hys.
Qed.



(** [symbols_for_program] finds no [symbol] attribute on whatever is not
    a program. *)
Lemma symbols_for_program_not_program (s : value) :
  is_program s = false -> symbols_for_program s = Raise AttributeError.
Proof.
  induction s as [a|symbol children IH] using value_ind_children;
    [reflexivity|].
  simpl. intros Hch.
  rewrite (each_raises _ is_program AttributeError); [reflexivity| |done].
  eapply Forall_impl; [exact IH|]. intros c Hc. split; [|exact Hc].
  intros Hprog. exists (preorder c). revert Hprog. clear.
  induction c as [a|symbol children IH] using value_ind_children;
    [discriminate|].
  simpl. intros Hch.
  assert (each symbols_for_program children = Ok (map preorder children))
    as ->.
  { induction IH as [|c cs Hc _ IHcs]; [reflexivity|].
    apply andb_true_iff in Hch as [Hc' Hcs].
    by rewrite each_cons, (Hc Hc'), (IHcs Hcs). }
  simpl. by rewrite flat_map_concat_map.
Qed.

(** On the pairs [to_pair] builds in default mode, [from_pair] is its
    inverse in either mode: no string is met except as a head. *)
Lemma from_pair_to_pair_default (e : value) (names : gset string)
    (for_stitch : bool) :
  is_program e = true ->
  exists p, to_pair e false = Ok p
            /\ from_pair p names for_stitch = Ok e.
Proof.
  induction e as [s|symbol children IH] using value_ind_children;
    [discriminate|].
  simpl is_program. intros Hch.
  assert (exists ps,
      Forall2 (fun x p => to_pair x false = Ok p) children ps
      /\ Forall2 (fun p v => from_pair p names for_stitch = Ok v)
           ps children) as (ps & Hto & Hfrom).
  { induction IH as [|c cs Hc _ IHcs].
    - exists []. split; constructor.
    - simpl in Hch. apply andb_true_iff in Hch as [Hc' Hcs'].
      destruct (Hc Hc') as (p & Hp & Hp').
      destruct (IHcs Hcs') as (ps & Hps & Hps').
      exists (p :: ps). split; by constructor. }
  rewrite to_pair_list by done.
  rewrite (each_Forall2 _ _ _ Hto). cbn [mbind result_bind].
  eexists; split; [reflexivity|].
  change (cons_onto (Str symbol :: ps) nil)
    with (Pair (Str symbol) (cons_onto ps nil)).
  rewrite from_pair_Pair.
  change (from_pair_loop ?f (Pair (Str symbol) ?d) [])
    with (from_pair_loop f d [Atom symbol]).
  assert ([Atom symbol] <> []) as Hne by discriminate.
  by rewrite (from_pair_loop_rest _ _ _ _ Hne Hfrom).
Qed.

Lemma applied_items_cons_onto (ps : list obj) :
  forallb applied ps = true -> applied_items (cons_onto ps nil) = true.
Proof.
  induction ps as [|p ps IH]; [reflexivity|].
  intros [Hp Hps]%andb_true_iff.
  change (cons_onto (p :: ps) nil) with (Pair p (cons_onto ps nil)).
  simpl. by rewrite Hp, IH.
Qed.

(** In stitch mode [to_pair] builds no list of a head alone. *)
Lemma to_pair_stitch_applied (e : value) (p : obj) :
  to_pair e true = Ok p -> applied p = true.
Proof.
  revert p.
  induction e as [s|symbol children IH] using value_ind_children;
    [discriminate|].
  intros p. destruct children as [|c cs].
  - rewrite to_pair_leaf. by intros [= <-].
  - rewrite to_pair_list by done.
    destruct (each _ (c :: cs)) as [ps|] eqn:Hps; [|discriminate].
    intros [= <-]. apply each_Ok_Forall2 in Hps.
    change (cons_onto (Str symbol :: ps) nil)
      with (Pair (Str symbol) (cons_onto ps nil)).
    assert (forallb applied ps = true) as Hall.
    { clear -IH Hps. induction Hps as [|x q xs qs Hq _ IHqs];
        [reflexivity|].
      apply Forall_cons in IH as [IHx IHxs].
      simpl. by rewrite (IHx q Hq), IHqs. }
    simpl. rewrite (applied_items_cons_onto _ Hall).
    inversion Hps; subst. reflexivity.
Qed.

(** A result without bare strings does not depend on names that were not
    needed: it is the same for every larger set. *)
Lemma from_pair_more_names (o : obj) (names names' : gset string)
    (for_stitch : bool) :
  names ⊆ names' ->
  forall v, from_pair o names for_stitch = Ok v -> is_program v = true ->
            from_pair o names' for_stitch = Ok v.
Proof.
  intros Hsub.
  induction o as [s| |a d _ IHd] using obj_items_ind; intros v.
  - rewrite !from_pair_Str. intros [= <-]. unfold token_value.
    destruct (for_stitch && startswith s "leaf-"); [done|].
    destruct (for_stitch && startswith s "$"); [done|].
    destruct (bool_decide (s ∈ names)) eqn:Hin; [|discriminate].
    apply bool_decide_eq_true in Hin.
    by rewrite bool_decide_eq_true_2 by set_solver.
  - discriminate.
  - intros Hv Hprog.
    apply from_pair_list_inv in Hv as (h & vs & -> & Hd & Hvs & ->).
    apply from_pair_list; [done|]. simpl in Hprog. clear Hd.
    induction Hvs as [|p w ps ws Hp _ IH]; [constructor|].
    apply Forall_cons in IHd as [IHp IHps].
    simpl in Hprog. apply andb_true_iff in Hprog as [Hw Hws].
    constructor; auto.
Qed.

(** *** What the reader hands to [from_pair] *)

Lemma flush_word_tokens (word : string) (ts : list token) :
  no_delim word = true -> Forall word_token ts ->
  Forall word_token (flush word ts).
Proof.
  intros Hword Hts. destruct word as [|c word]; [done|].
  constructor; [|done]. unfold word_token, is_word. by rewrite Hword.
Qed.

(** The lexer cuts the text into words. *)
Lemma lex_from_word_tokens (s word : string) :
  no_delim word = true -> Forall word_token (lex_from word s).
Proof.
  revert word. induction s as [|c s IH]; intros word Hword; simpl.
  - by apply flush_word_tokens.
  - destruct (is_space c) eqn:Hspace;
      [by apply flush_word_tokens; auto|].
    destruct (is_open c) eqn:Hopen.
    { apply flush_word_tokens; [done|]. constructor; [done|]. by apply IH. }
    destruct (is_close c) eqn:Hclose.
    { apply flush_word_tokens; [done|]. constructor; [done|]. by apply IH. }
    apply IH. rewrite no_delim_append, Hword. simpl.
    unfold is_delim. by rewrite Hspace, Hopen, Hclose.
Qed.

Lemma words_only_cons_onto (xs : list obj) :
  Forall (fun o => words_only o = true) xs ->
  words_only (cons_onto xs nil) = true.
Proof.
  induction 1 as [|x xs Hx _ IH]; [reflexivity|].
  change (cons_onto (x :: xs) nil) with (Pair x (cons_onto xs nil)).
  simpl. by rewrite Hx, IH.
Qed.

Lemma parse_tokens_words_only (ts : list token) :
  Forall word_token ts ->
  forall outer done ps,
    Forall (Forall (fun o => words_only o = true)) outer ->
    Forall (fun o => words_only o = true) done ->
    parse_tokens ts outer done = Ok ps ->
    Forall (fun o => words_only o = true) ps.
Proof.
  induction 1 as [|t ts Ht _ IH]; intros outer done ps Houter Hdone; simpl.
  - destruct outer; [|discriminate]. intros [= <-].
    by apply Forall_rev.
  - destruct t as [| |w].
    + apply IH; [by constructor|constructor].
    + destruct outer as [|up outer]; [discriminate|].
      apply Forall_cons in Houter as [Hup Houter].
      apply IH; [done|]. constructor; [|done].
      by apply words_only_cons_onto, Forall_rev.
    + apply IH; [done|]. by constructor.
Qed.

(** Every string the reader returns is a word. *)
Lemma parse_words_only (s : string) (ps : list obj) :
  parse s = Ok ps -> Forall (fun o => words_only o = true) ps.
Proof.
  apply parse_tokens_words_only; try constructor.
  by apply lex_from_word_tokens.
Qed.

Lemma no_delim_slice_from (n : nat) (s : string) :
  no_delim s = true -> no_delim (slice_from n s) = true.
Proof.
  revert s. induction n as [|n IH]; intros [|c s]; simpl; try done.
  intros [_ Hs]%andb_true_iff. by apply IH.
Qed.

Lemma words_only_items (d : obj) :
  words_only d = true -> Forall (fun o => words_only o = true) (items d).
Proof.
  induction d as [s| |a _ d IHd]; simpl; try constructor.
  - by apply andb_true_iff in H as [? _].
  - apply IHd. by apply andb_true_iff in H as [_ ?].
Qed.

Lemma fits_leaf (for_stitch : bool) (symbol : string) :
  fits for_stitch (SExpression symbol [])
  = if for_stitch then no_delim symbol else is_word symbol.
Proof. destruct for_stitch; simpl; by rewrite andb_true_r. Qed.

(** The values made of words can be printed in the mode they were read
    in. *)
Lemma from_pair_fits (o : obj) (names : gset string) (for_stitch : bool) :
  words_only o = true ->
  forall v, from_pair o names for_stitch = Ok v -> fits for_stitch v = true.
Proof.
  induction o as [s| |a d _ IHd] using obj_items_ind; intros Hwords v.
  - rewrite from_pair_Str. intros [= <-]. simpl in Hwords.
    pose proof (is_word_no_delim _ Hwords) as Hnd.
    unfold token_value.
    destruct (for_stitch && startswith s "leaf-") eqn:Hprefix.
    { apply andb_true_iff in Hprefix as [-> _]. rewrite fits_leaf.
      by apply no_delim_slice_from. }
    destruct (for_stitch && startswith s "$") eqn:Hmarker.
    { apply andb_true_iff in Hmarker as [-> _]. by rewrite fits_leaf. }
    destruct (bool_decide (s ∈ names)); [|done].
    rewrite fits_leaf. by destruct for_stitch.
  - discriminate.
  - intros Hv.
    apply from_pair_list_inv in Hv as (h & vs & -> & Hd & Hvs & ->).
    simpl in Hwords. apply andb_true_iff in Hwords as [Hh Hwd].
    simpl. apply andb_true_iff. split.
    + destruct (for_stitch && bool_decide (vs = [])); [|done].
      by apply is_word_no_delim.
    + apply words_only_items in Hwd. clear Hd.
      induction Hvs as [|p w ps ws Hp _ IH]; [reflexivity|].
      apply Forall_cons in IHd as [IHp IHps].
      apply Forall_cons in Hwd as [Hpw Hpsw].
      simpl. rewrite (IHp Hpw w Hp). by apply IH.
Qed.

(** Programs whose symbols fit the mode are converted to readable
    objects. *)
Lemma to_pair_fits_readable (e : value) (for_stitch : bool) (p : obj) :
  is_program e = true -> fits for_stitch e = true ->
  to_pair e for_stitch = Ok p -> readable p = true.
Proof.
  revert p.
  induction e as [s|symbol children IH] using value_ind_children;
    [discriminate|].
  simpl is_program. simpl fits.
  intros p Hprog [Hsym Hfits]%andb_true_iff.
  destruct (for_stitch && bool_decide (children = [])) eqn:Hleaf.
  - apply andb_true_iff in Hleaf as [-> ->%bool_decide_eq_true].
    rewrite to_pair_leaf. intros [= <-]. simpl.
    by apply leaf_token_is_word.
  - rewrite to_pair_list by done.
    destruct (each _ children) as [ps|] eqn:Hps; [|discriminate].
    intros [= <-]. apply (readable_cons_onto (Str symbol :: ps)).
    simpl. rewrite Hsym. simpl.
    apply each_Ok_Forall2 in Hps. clear Hleaf Hsym.
    induction Hps as [|c q cs qs Hq _ IHqs]; [reflexivity|].
    simpl in Hprog, Hfits.
    apply andb_true_iff in Hprog as [Hc Hcs].
    apply andb_true_iff in Hfits as [Hc' Hcs'].
    apply Forall_cons in IH as [IHc IHcs].
    simpl. rewrite (IHc q Hc Hc' Hq). by apply IHqs.
Qed.

End ConversionFacts.

(** ** Further properties of rendering and parsing *)

Section RenderProperties.
Import Lib Render LibFacts RenderFacts ConversionFacts.

Lemma parse_s_expression_inv (s : string) (names : option (gset string))
    (for_stitch : bool) (v : value) :
  parse_s_expression s names for_stitch = Ok v ->
  exists p, parse s = Ok [p]
            /\ from_pair p (default ∅ names) for_stitch = Ok v.
Proof.
  unfold parse_s_expression.
  destruct (parse s) as [pairs|]; [|discriminate].
  cbn [mbind result_bind].
  destruct pairs as [|p [|q pairs]]; try discriminate.
  intros Hv. by exists p.
Qed.

Lemma parse_s_expression_one (s : string) (names : option (gset string))
    (for_stitch : bool) (p : obj) :
  parse s = Ok [p] ->
  parse_s_expression s names for_stitch
  = from_pair p (default ∅ names) for_stitch.
Proof. intros Hp. unfold parse_s_expression. by rewrite Hp. Qed.

Lemma forallb_flat_map {A B : Type} (ok : B -> bool) (f : A -> list B)
    (xs : list A) :
  forallb ok (flat_map f xs) = forallb (fun x => forallb ok (f x)) xs.
Proof.
  induction xs as [|x xs IH]; [reflexivity|].
  simpl. by rewrite forallb_app, IH.
Qed.

Lemma all_symbols_preorder (ok : string -> bool) (e : value) :
  is_program e = true -> all_symbols ok e = forallb ok (preorder e).
Proof.
  induction e as [a|symbol children IH] using value_ind_children;
    [discriminate|].
  simpl. intros Hch. f_equal. rewrite forallb_flat_map.
  induction IH as [|c cs Hc _ IHcs]; [reflexivity|].
  apply andb_true_iff in Hch as [Hc' Hcs].
  simpl. by rewrite (Hc Hc'), (IHcs Hcs).
Qed.

(** X1.  [from_pair] undoes [to_pair] on every program, in either mode
    and for every set of names, whatever the symbols are. *)
Theorem pair_round_trip (e : value) (names : gset string)
    (for_stitch : bool) :
  is_program e = true ->
  exists p, to_pair e for_stitch = Ok p
            /\ from_pair p names for_stitch = Ok e.
Proof. apply from_pair_to_pair. Qed.

Lemma pair_round_trip_witness :
  exists p,
    to_pair (SExpression "leaf-f" [SExpression "a b" []; SExpression "" []])
            true = Ok p
    /\ from_pair p ∅ true
       = Ok (SExpression "leaf-f"
               [SExpression "a b" []; SExpression "" []]).
Proof. by apply pair_round_trip. Defined.



(** X3.  [from_pair] succeeds exactly on a string and on a proper list
    whose head is a string and whose items are of the same kind; [nil],
    a list headed by a list, and a chain that ends in a string all make
    it raise. *)
Theorem from_pair_succeeds_iff_convertible (o : obj)
    (names : gset string) (for_stitch : bool) :
  (exists v, from_pair o names for_stitch = Ok v) <-> convertible o = true.
Proof. apply from_pair_succeeds_iff. Qed.

Lemma from_pair_succeeds_iff_convertible_witness :
  (exists v,
     from_pair (Pair (Str "f") (Pair (Pair (Str "g") nil) nil)) ∅ false
     = Ok v)
  /\ convertible (Pair (Str "f") (Pair (Str "x") (Str "y"))) = false.
Proof.
  split.
  - by apply (from_pair_succeeds_iff_convertible
                (Pair (Str "f") (Pair (Pair (Str "g") nil) nil)) ∅ false).
  - destruct (convertible (Pair (Str "f") (Pair (Str "x") (Str "y"))))
      eqn:H; [|reflexivity].
    apply (from_pair_succeeds_iff_convertible _ ∅ false) in H as [v Hv].
    discriminate Hv.
Defined.

(** X4.  [parse_s_expression] succeeds exactly when the text holds one
    top-level expression and that expression is convertible. *)
Theorem parse_succeeds_iff (s : string) (names : option (gset string))
    (for_stitch : bool) :
  (exists v, parse_s_expression s names for_stitch = Ok v)
  <-> exists p, parse s = Ok [p] /\ convertible p = true.
Proof.
  split.
  - intros [v Hv]. apply parse_s_expression_inv in Hv as (p & Hp & Hv).
    exists p. split; [done|].
    apply (from_pair_succeeds_iff p (default ∅ names) for_stitch). eauto.
  - intros (p & Hp & Hconv).
    rewrite (parse_s_expression_one _ _ _ _ Hp).
    by apply (from_pair_succeeds_iff p (default ∅ names) for_stitch).
Qed.

Lemma parse_succeeds_iff_witness :
  exists v, parse_s_expression "(f (g x) y)" None true = Ok v.
Proof.
  apply parse_succeeds_iff. eexists. split; reflexivity.
Defined.

(** X5.  When [from_pair] succeeds on a list, the head is a string and
    becomes the symbol as it is, in stitch mode too, and the children are
    the conversions of the items, one for one and in order. *)
Theorem from_pair_list_shape (a d : obj) (v : value)
    (names : gset string) (for_stitch : bool) :
  from_pair (Pair a d) names for_stitch = Ok v ->
  exists h vs,
    a = Str h
    /\ v = SExpression h vs
    /\ Forall2 (fun p w => from_pair p names for_stitch = Ok w)
               (items d) vs.
Proof.
  intros Hv.
  apply from_pair_list_inv in Hv as (h & vs & -> & _ & Hvs & ->).
  by exists h, vs.
Qed.

Lemma from_pair_list_shape_witness :
  exists h vs,
    Str "leaf-f" = Str h
    /\ SExpression "leaf-f" [SExpression "x" []; Atom "y"]
       = SExpression h vs
    /\ Forall2 (fun p w => from_pair p ∅ true = Ok w)
               (items (Pair (Str "leaf-x") (Pair (Str "y") nil))) vs.
Proof.
  by apply (from_pair_list_shape (Str "leaf-f")
              (Pair (Str "leaf-x") (Pair (Str "y") nil))).
Defined.

(** X6.  [from_pair] returns a bare string only for a string that is
    not among the names and, in stitch mode, carries neither the prefix
    nor the marker; a list is never read as a bare string. *)
Theorem bare_string_only_from_token (o : obj) (a : string)
    (names : gset string) (for_stitch : bool) :
  from_pair o names for_stitch = Ok (Atom a) ->
  o = Str a
  /\ (a ∉ names)
  /\ (for_stitch = true ->
      startswith a "leaf-" = false /\ startswith a "$" = false).
Proof.
  destruct o as [s| |car cdr].
  - rewrite from_pair_Str. unfold token_value.
    destruct (for_stitch && startswith s "leaf-") eqn:Hprefix;
      [discriminate|].
    destruct (for_stitch && startswith s "$") eqn:Hmarker; [discriminate|].
    destruct (bool_decide (s ∈ names)) eqn:Hin; [discriminate|].
    intros [= <-]. split; [reflexivity|].
    apply bool_decide_eq_false in Hin. split; [exact Hin|].
    intros ->. by split.
  - discriminate.
  - intros Hv.
    by apply from_pair_list_inv in Hv as (h & vs & _ & _ & _ & [=]).
Qed.

Lemma bare_string_only_from_token_witness :
  Str "x" = Str "x"
  /\ ("x" ∉ ({["y"]} : gset string))
  /\ (true = true ->
      startswith "x" "leaf-" = false /\ startswith "x" "$" = false).
Proof. by apply (bare_string_only_from_token (Str "x") "x" {["y"]} true). Defined.

(** X7.  In stitch mode [to_pair] never builds a list of a head alone:
    every list it returns has at least one item after the head, since
    the tool read from does not tell `(f)` from `f`. *)
Theorem stitch_has_no_bare_call (e : value) (p : obj) :
  to_pair e true = Ok p -> applied p = true.
Proof. apply to_pair_stitch_applied. Qed.

Lemma stitch_has_no_bare_call_witness :
  applied (Pair (Str "f") (Pair (Str "leaf-x") (Pair (Str "$0") nil)))
  = true.
Proof.
  by apply (stitch_has_no_bare_call
              (SExpression "f" [SExpression "x" []; SExpression "$0" []])).
Defined.

(** X8.  What is rendered in default mode is read back in either mode
    and with any set of names: every node is printed as a list, so no
    bare token is left to interpret. *)
Theorem default_rendering_reads_in_any_mode (e : value) :
  is_program e = true -> all_symbols is_word e = true ->
  exists text,
    render_s_expression e false = Ok text
    /\ forall names for_stitch,
         parse_s_expression text names for_stitch = Ok e.
Proof.
  intros Hprog Hwords.
  destruct (to_pair_total e false Hprog) as [p Hp].
  exists (render p). unfold render_s_expression. rewrite Hp.
  split; [reflexivity|]. intros names for_stitch.
  destruct (from_pair_to_pair_default e (default ∅ names) for_stitch Hprog)
    as (p' & Hp' & Hfrom).
  rewrite Hp in Hp'. injection Hp' as <-.
  rewrite (parse_s_expression_one _ _ _ p); [done|].
  apply parse_render. by apply (to_pair_readable e false).
Qed.

Lemma default_rendering_reads_in_any_mode_witness :
  exists text,
    render_s_expression
      (SExpression "leaf-f" [SExpression "$x" []; SExpression "y" []]) false
    = Ok text
    /\ forall names for_stitch,
         parse_s_expression text names for_stitch
         = Ok (SExpression "leaf-f"
                 [SExpression "$x" []; SExpression "y" []]).
Proof. by apply default_rendering_reads_in_any_mode. Defined.

(** X9.  In a given mode two programs whose symbols are words are
    rendered as the same text only if they are the same program. *)
Theorem rendering_injective (e1 e2 : value) (for_stitch : bool) :
  is_program e1 = true -> all_symbols is_word e1 = true ->
  is_program e2 = true -> all_symbols is_word e2 = true ->
  render_s_expression e1 for_stitch = render_s_expression e2 for_stitch ->
  e1 = e2.
Proof.
  intros Hp1 Hw1 Hp2 Hw2 Heq.
  destruct (parse_render_program e1 None for_stitch Hp1 Hw1)
    as (t1 & Hr1 & Hparse1).
  destruct (parse_render_program e2 None for_stitch Hp2 Hw2)
    as (t2 & Hr2 & Hparse2).
  rewrite Hr1, Hr2 in Heq. injection Heq as ->.
  rewrite Hparse1 in Hparse2. by injection Hparse2.
Qed.

Lemma rendering_injective_witness :
  SExpression "f" [SExpression "x" []] = SExpression "f" [SExpression "x" []].
Proof.
  by apply (rendering_injective (SExpression "f" [SExpression "x" []])
              (SExpression "f" [SExpression "x" []]) true).
Defined.

(** X10.  A program that [parse_s_expression] returned can be rendered
    in the same mode, and parsing that rendering with the same names
    returns the program again. *)
Theorem reparse_stable (s : string) (names : option (gset string))
    (for_stitch : bool) (e : value) :
  parse_s_expression s names for_stitch = Ok e -> is_program e = true ->
  exists text,
    render_s_expression e for_stitch = Ok text
    /\ parse_s_expression text names for_stitch = Ok e.
Proof.
  intros Hparse Hprog.
  apply parse_s_expression_inv in Hparse as (p & Hp & Hfrom).
  apply parse_words_only in Hp. apply Forall_cons in Hp as [Hwords _].
  pose proof (from_pair_fits _ _ _ Hwords _ Hfrom) as Hfits.
  destruct (from_pair_to_pair e (default ∅ names) for_stitch Hprog)
    as (p' & Hto & Hback).
  exists (render p'). unfold render_s_expression. rewrite Hto.
  split; [reflexivity|].
  rewrite (parse_s_expression_one _ _ _ p'); [done|].
  apply parse_render. by apply (to_pair_fits_readable e for_stitch).
Qed.

Lemma reparse_stable_witness :
  exists text,
    render_s_expression
      (SExpression "f" [SExpression "" []; SExpression "x" []]) true
    = Ok text
    /\ parse_s_expression text (Some {["x"]}) true
       = Ok (SExpression "f" [SExpression "" []; SExpression "x" []]).
Proof.
  by apply (reparse_stable "  (f leaf-
    x)" (Some {["x"]}) true).
Defined.

(** X11.  A result without bare strings does not change when names are
    added to [should_not_be_leaf]. *)
Theorem more_names_same_program (s : string) (names names' : gset string)
    (for_stitch : bool) (v : value) :
  names ⊆ names' ->
  parse_s_expression s (Some names) for_stitch = Ok v ->
  is_program v = true ->
  parse_s_expression s (Some names') for_stitch = Ok v.
Proof.
  intros Hsub Hparse Hprog.
  apply parse_s_expression_inv in Hparse as (p & Hp & Hfrom).
  rewrite (parse_s_expression_one _ _ _ p Hp).
  by apply (from_pair_more_names p names names').
Qed.

Lemma more_names_same_program_witness :
  parse_s_expression "(f x $0)" (Some {["x"; "y"]}) true
  = Ok (SExpression "f" [SExpression "x" []; SExpression "$0" []]).
Proof.
  apply (more_names_same_program "(f x $0)" {["x"]} {["x"; "y"]} true);
    [set_solver|reflexivity|reflexivity].
Defined.

(** X12.  [symbols_for_program] raises [AttributeError] on every value
    that holds a bare string, such as the result of parsing `(f x)` with
    no name given for `x`. *)
Theorem symbols_for_program_raises (s : value) :
  is_program s = false -> symbols_for_program s = Raise AttributeError.
Proof. apply symbols_for_program_not_program. Qed.

Lemma symbols_for_program_raises_witness :
  (v ← parse_s_expression "(f x)" None false; symbols_for_program v)
  = Raise AttributeError.
Proof.
  change (symbols_for_program (SExpression "f" [Atom "x"])
          = Raise AttributeError).
  by apply symbols_for_program_raises.
Defined.

(** X13.  A condition holds for every symbol of a program exactly when
    it holds for every entry of the list [symbols_for_program]
    returns. *)
Theorem all_symbols_by_list (ok : string -> bool) (e : value) :
  is_program e = true ->
  exists symbols,
    symbols_for_program e = Ok symbols
    /\ all_symbols ok e = forallb ok symbols.
Proof.
  intros Hprog. exists (preorder e).
  split; [by apply symbols_for_program_program|].
  by apply all_symbols_preorder.
Qed.

Lemma all_symbols_by_list_witness :
  exists symbols,
    symbols_for_program (SExpression "f" [SExpression "a b" []])
    = Ok symbols
    /\ all_symbols is_word (SExpression "f" [SExpression "a b" []])
       = forallb is_word symbols.
Proof. by apply all_symbols_by_list. Defined.

End RenderProperties.

(** ** Further properties of productions *)

Section ProductionProperties.
Import Production.
Context {V R TypeSignature World : Type}.

(** X14.  The states of the two variants are not interchangeable: the
    state a parameterized production initializes is accepted by the
    stateless [compute_on_pytorch] of the record it extends only when it
    is empty, in which case both compute the same; otherwise the
    stateless method fails its assertion while the parameterized one
    returns a result. *)
Theorem parameterized_state_on_concrete
    (p : ParameterizedProduction V R TypeSignature World) (w : World)
    (inputs : list V) :
  let state := fst (initialize p w) in
  (state = ∅ ->
   compute_on_pytorch p state inputs
   = compute_on_pytorch (World := World) (concrete p) state inputs)
  /\ (state <> ∅ ->
      compute_on_pytorch (World := World) (concrete p) state inputs
      = Raise AssertionError
      /\ compute_on_pytorch p state inputs
         = Ok (_compute_on_pytorch p inputs state)).
Proof.
  simpl. split.
  - intros ->. by destruct (decide ((∅ : gmap string V) = ∅)).
  - intros Hne. split; [|reflexivity].
    by destruct (decide (fst (_initialize p w) = (∅ : gmap string V))).
Qed.

End ProductionProperties.

Lemma parameterized_state_on_concrete_witness :
  let state : gmap string Z := {["b" := 1%Z]} in
  Production.compute_on_pytorch (World := unit)
    (Production.concrete Production.bias_production) state [2%Z; 3%Z]
  = Raise AssertionError
  /\ Production.compute_on_pytorch Production.bias_production state
       [2%Z; 3%Z]
     = Ok 6%Z.
Proof.
  apply (parameterized_state_on_concrete Production.bias_production tt
           [2%Z; 3%Z]).
  apply insert_non_empty.
Defined.
